(** * Helios: session layer of the Helios-Starling server

    A shallow embedding of the four components of the server core and the
    properties established about them:

    - [States]   : [StatesManager] (managers/states.js) - provider registry,
                   single-flight token generation, restore;
    - [Peer]     : [Starling] (core/starling.js) - link / unlink / close and
                   the eviction timer;
    - [Registry] : [StarlingsManager] (managers/starlings.js) - connection
                   handling and recovery;
    - [Proxy]    : [ProxyManager] (managers/proxy.js) - proxy routing.

    JavaScript runs one task at a time; an [async] function runs without
    interruption from one [await] to the next.  Asynchronous operations are
    therefore modelled as labelled transition systems whose steps are exactly
    these uninterrupted segments, the label carrying what the environment
    decides (which continuation runs, how an external promise settles).

    The base classes [BaseStarling] and [NetworkNode], the message buffer,
    the request table, the event emitter and the JWT library belong to other
    packages.  Their accessors ([helios], [keys], [events], [id]) are taken
    to return the fields they are named after, event emission to append to a
    log, and signing and verification to be functions given from outside.

    The four modules of definitions come first, followed by the accessors
    of the managers, the runs used to state invariants and the server's
    proxy middlewares ([StatesQueries], [RegistryQueries], [ProxyRuns],
    [Middlewares]); the properties come after. *)

From Stdlib Require Import ZArith List Bool Lia.
From stdpp Require Import gmap strings list fin_maps.

Set Warnings "-register-all,-clear-no-such-hyp".

Open Scope string_scope.
Open Scope list_scope.

(** ** Common vocabulary *)

(** JSON-like values carried as snapshots and claims. *)
Inductive Value :=
| VNull
| VUndefined
| VBool (b : bool)
| VNum (z : Z)
| VStr (s : string)
| VObj (fields : list (string * Value)).

(** JavaScript truthiness, as used by [if (options.defaultState)]. *)
Definition truthy (v : Value) : bool :=
  match v with
  | VNull | VUndefined => false
  | VBool b => b
  | VNum z => negb (z =? 0)%Z
  | VStr s => negb (String.eqb s "")
  | VObj _ => true
  end.

(** Outcome of a call that may throw; the error is represented by its
    [message]. *)
Inductive Res (A : Type) :=
| Ok (a : A)
| Throw (message : string).
Arguments Ok {A} a.
Arguments Throw {A} message.

(** [events.emit(name, { ..., debug: { message } })]. *)
Record Event := { ev_name : string; ev_message : string }.

(** Lookup in an insertion-ordered JavaScript [Map] with string keys. *)
Fixpoint assoc {A : Type} (k : string) (l : list (string * A)) : option A :=
  match l with
  | [] => None
  | (k', a) :: r => if String.eqb k k' then Some a else assoc k r
  end.

(** [obj[k] = v] on a plain object: overwrite in place or append. *)
Fixpoint obj_set (k : string) (v : Value) (o : list (string * Value))
  : list (string * Value) :=
  match o with
  | [] => [(k, v)]
  | (k', v') :: r =>
      if String.eqb k k' then (k', v) :: r else (k', v') :: obj_set k v r
  end.

(** [pending] without its first occurrence of [ns]. *)
Fixpoint remove_first (ns : string) (pending : list string) : list string :=
  match pending with
  | [] => []
  | x :: r => if String.eqb ns x then r else x :: remove_first ns r
  end.

Definition mem (ns : string) (l : list string) : bool :=
  existsb (String.eqb ns) l.

(** ** StatesManager *)

Module States.

(** [crypto.randomUUID()].  The promise stored in [_stateGenerationLock] is
    identified by the generation that created it. *)
Abbreviation GenId := string.

(** How the promise returned by [provider.save()] settles. *)
Inductive SaveOutcome :=
| Fulfilled (state : Value)
| Rejected (message : string).

Record StateRegistrationOptions := {
  required : bool;
  defaultState : Value
}.

(** A provider's [restore] ([provider_restore]) acts on the application
    state [App]; it may have changed the state when it rejects.  [save] is a
    call into application code: its settlement is an event of the scheduler
    ([SaveSettled]). *)
Record StateProvider (App : Type) := {
  provider_restore : Value -> App -> App * option string;
  provider_validate : option (Value -> bool)
}.
Arguments provider_restore {App} _ _ _.
Arguments provider_validate {App} _.

Record StateTokenOptions := {
  expiresIn : option string;
  customClaims : list (string * Value)
}.

(** The object handed to [SignJWT]:
    [{ starlingId, states, timestamp, ...options.customClaims }], the custom
    claims ([claims]) being spread last, beside the three fields the manager
    fills in. *)
Record TokenPayload := {
  starlingId : string;
  states : list (string * Value);
  timestamp : Z;
  claims : list (string * Value)
}.

Record StatesManager (App : Type) := {
  _starling : string;
  _providers : list (string * StateProvider App);
  _options : list (string * StateRegistrationOptions);
  _stateGenerationLock : option GenId;
  _currentGenerationId : option GenId
}.
Arguments _starling {App} _.
Arguments _providers {App} _.
Arguments _options {App} _.
Arguments _stateGenerationLock {App} _.
Arguments _currentGenerationId {App} _.

Definition set_lock {App} (lock cur : option GenId) (m : StatesManager App)
  : StatesManager App :=
  {| _starling := _starling m;
     _providers := _providers m;
     _options := _options m;
     _stateGenerationLock := lock;
     _currentGenerationId := cur |}.

(** Where a [generateToken] call is suspended. *)
Inductive Frame :=
| AwaitLock (opts : StateTokenOptions) (p : GenId)
| Gathering (opts : StateTokenOptions) (ts : Z) (pending : list string)
    (sts : list (string * Value)) (errors : list string)
| Signing (payload : TokenPayload) (exp : string)
| Done (r : Res string).

Record Runtime (App : Type) := {
  manager : StatesManager App;
  frames : gmap GenId Frame;
  resolved : list GenId;
  emitted : list Event
}.
Arguments manager {App} _.
Arguments frames {App} _.
Arguments resolved {App} _.
Arguments emitted {App} _.

(** What makes a segment of some call run:
    - [Invoke]: a caller invokes [generateToken]; [g] is the id drawn, [now]
      the clock;
    - [Resume]: the promise a call awaits in the [while] loop has resolved
      and its continuation runs;
    - [SaveSettled]: the promise of one [provider.save()] settles and its
      [.then] / [.catch] handler runs;
    - [AllSettled]: [await Promise.all(statePromises)] resumes;
    - [Signed]: the signer has settled and the call returns or throws. *)
Inductive Label :=
| Invoke (g : GenId) (opts : StateTokenOptions) (now : Z)
| Resume (g : GenId) (now : Z)
| SaveSettled (g : GenId) (ns : string) (o : SaveOutcome)
| AllSettled (g : GenId)
| Signed (g : GenId).

Section Generation.
Context {App : Type}.
(** The signer capability: [new SignJWT(payload)...sign(key)]. *)
Variable sign : TokenPayload -> string -> Res string.

Definition put_frame (g : GenId) (f : Frame) (rt : Runtime App) : Runtime App :=
  {| manager := manager rt;
     frames := <[g := f]> (frames rt);
     resolved := resolved rt;
     emitted := emitted rt |}.

(** The [while] test and, when the lock is free, the acquisition and the
    synchronous start of every provider's [save], up to
    [await Promise.all(statePromises)]. *)
Definition enter (g : GenId) (opts : StateTokenOptions) (now : Z)
  (rt : Runtime App) : Runtime App :=
  match _stateGenerationLock (manager rt) with
  | Some p => put_frame g (AwaitLock opts p) rt
  | None =>
      {| manager := set_lock (Some g) (Some g) (manager rt);
         frames := <[g := Gathering opts now
                              (map fst (_providers (manager rt))) [] []]>
                     (frames rt);
         resolved := resolved rt;
         emitted := emitted rt |}
  end.

(** The [finally] block, then the call settles with [r]. *)
Definition finally (g : GenId) (r : Res string) (rt : Runtime App)
  : Runtime App :=
  {| manager :=
       if decide (_currentGenerationId (manager rt) = Some g)
       then set_lock None None (manager rt)
       else manager rt;
     frames := <[g := Done r]> (frames rt);
     resolved := g :: resolved rt;
     emitted := emitted rt |}.

(** [options.expiresIn || '1h'] *)
Definition expiry (opts : StateTokenOptions) : string :=
  match expiresIn opts with
  | Some e => if String.eqb e "" then "1h" else e
  | None => "1h"
  end.

Definition is_required (m : StatesManager App) (ns : string) : bool :=
  match assoc ns (_options m) with
  | Some o => required o
  | None => false
  end.

Definition save_error (ns msg : string) : string :=
  "Failed to save required state " +:+ ns +:+ ": " +:+ msg.

Definition save_failed (ns msg : string) : Event :=
  {| ev_name := "state:save:failed";
     ev_message := "Failed to save state for " +:+ ns +:+ ": " +:+ msg |}.

(** The [.then] / [.catch] handlers attached to one [provider.save()]. *)
Definition on_save (g : GenId) (ns : string) (o : SaveOutcome)
  (opts : StateTokenOptions) (ts : Z) (pending : list string)
  (sts : list (string * Value)) (errors : list string)
  (rt : Runtime App) : Runtime App :=
  let pending' := remove_first ns pending in
  match o with
  | Fulfilled v =>
      let sts' :=
        if decide (_currentGenerationId (manager rt) = Some g)
        then obj_set ns v sts else sts in
      put_frame g (Gathering opts ts pending' sts' errors) rt
  | Rejected msg =>
      if is_required (manager rt) ns then
        put_frame g
          (Gathering opts ts pending' sts (errors ++ [save_error ns msg])) rt
      else
        {| manager := manager rt;
           frames := <[g := Gathering opts ts pending' sts errors]> (frames rt);
           resolved := resolved rt;
           emitted := emitted rt ++ [save_failed ns msg] |}
  end.

(** What runs when [await Promise.all(statePromises)] resumes: the
    superseded test, the error test, and the call of the signer. *)
Definition after_gather (g : GenId) (opts : StateTokenOptions) (ts : Z)
  (sts : list (string * Value)) (errors : list string)
  (rt : Runtime App) : Runtime App :=
  if decide (_currentGenerationId (manager rt) = Some g) then
    match errors with
    | [] =>
        put_frame g
          (Signing {| starlingId := _starling (manager rt);
                      states := sts;
                      timestamp := ts;
                      claims := customClaims opts |}
                   (expiry opts))
          rt
    | _ :: _ =>
        finally g
          (Throw ("State token generation failed: " +:+ String.concat ", " errors))
          rt
    end
  else
    finally g (Throw "State generation was superseded by newer request") rt.

(** [generateToken], one uninterrupted segment at a time: the segment that
    label [l] selects runs on [rt], if it is enabled there.  A call is
    invoked under an id not drawn before. *)
Definition generateToken (l : Label) (rt : Runtime App)
  : option (Runtime App) :=
  match l with
  | Invoke g opts now =>
      match frames rt !! g with
      | None => Some (enter g opts now rt)
      | Some _ => None
      end
  | Resume g now =>
      match frames rt !! g with
      | Some (AwaitLock opts p) =>
          if mem p (resolved rt) then Some (enter g opts now rt) else None
      | _ => None
      end
  | SaveSettled g ns o =>
      match frames rt !! g with
      | Some (Gathering opts ts pending sts errors) =>
          if mem ns pending
          then Some (on_save g ns o opts ts pending sts errors rt)
          else None
      | _ => None
      end
  | AllSettled g =>
      match frames rt !! g with
      | Some (Gathering opts ts [] sts errors) =>
          Some (after_gather g opts ts sts errors rt)
      | _ => None
      end
  | Signed g =>
      match frames rt !! g with
      | Some (Signing payload exp) => Some (finally g (sign payload exp) rt)
      | _ => None
      end
  end.

(** The manager as the constructor leaves it, with whatever providers have
    been registered, and no call in progress. *)
Definition idle (m : StatesManager App) : Runtime App :=
  {| manager := set_lock None None m;
     frames := ∅;
     resolved := [];
     emitted := [] |}.

Inductive reachable (m : StatesManager App) : Runtime App -> Prop :=
| reachable_idle : reachable m (idle m)
| reachable_step rt l rt' :
    reachable m rt -> generateToken l rt = Some rt' -> reachable m rt'.

Fixpoint run (ls : list Label) (rt : Runtime App) : option (Runtime App) :=
  match ls with
  | [] => Some rt
  | l :: r =>
      match generateToken l rt with Some rt' => run r rt' | None => None end
  end.

(** A settlement schedule: the providers' [save] promises in the order in
    which they settle, each with its outcome. *)
Definition settles (g : GenId) (sched : list (string * SaveOutcome))
  : list Label :=
  map (λ x, SaveSettled g x.1 x.2) sched.

(** The settlements of [g]'s saves among the steps [ls], in order. *)
Fixpoint saves_of (g : GenId) (ls : list Label) : list (string * SaveOutcome) :=
  match ls with
  | [] => []
  | SaveSettled g' ns o :: r =>
      if decide (g' = g) then (ns, o) :: saves_of g r else saves_of g r
  | _ :: r => saves_of g r
  end.




(** Coarse view of a frame: waiting for the promise of [p], owning a save
    batch (from the start of the saves until the call settles), settled. *)
Inductive Kind :=
| KWait (p : GenId)
| KFlight
| KDone.

Definition kind (f : Frame) : Kind :=
  match f with
  | AwaitLock _ p => KWait p
  | Gathering _ _ _ _ _ | Signing _ _ => KFlight
  | Done _ => KDone
  end.

Definition in_flight (rt : Runtime App) (g : GenId) : Prop :=
  kind <$> frames rt !! g = Some KFlight.

Definition waiting_on (rt : Runtime App) (g p : GenId) : Prop :=
  kind <$> frames rt !! g = Some (KWait p).

Definition settled (rt : Runtime App) (g : GenId) : Prop :=
  kind <$> frames rt !! g = Some KDone.

End Generation.

(** *** Registration and construction *)

Section Registration.
Context {App : Type}.

Definition register (ns : string) (provider : StateProvider App)
  (options : StateRegistrationOptions) (m : StatesManager App)
  : Res (StatesManager App * Event) :=
  match assoc ns (_providers m) with
  | Some _ => Throw ("State namespace " +:+ ns +:+ " is already registered")
  | None =>
      Ok ({| _starling := _starling m;
             _providers := _providers m ++ [(ns, provider)];
             _options := _options m ++ [(ns, options)];
             _stateGenerationLock := _stateGenerationLock m;
             _currentGenerationId := _currentGenerationId m |},
          {| ev_name := "state:registered";
             ev_message := "State provider registered for namespace " +:+ ns |})
  end.

(** The core providers restore nothing: [async (state) => {}]. *)
Definition core_provider : StateProvider App :=
  {| provider_restore := λ _ a, (a, None); provider_validate := None |}.

Definition core_options : StateRegistrationOptions :=
  {| required := true; defaultState := VNull |}.

(** [new StatesManager(starling)]: empty maps, no lock, then
    [_registerCoreStates()]; with the events the two registrations emit. *)
Definition construct (id : string) : StatesManager App * list Event :=
  let m0 := {| _starling := id; _providers := []; _options := [];
               _stateGenerationLock := None; _currentGenerationId := None |} in
  match register "connection" core_provider core_options m0 with
  | Ok (m1, e1) =>
      match register "info" core_provider core_options m1 with
      | Ok (m2, e2) => (m2, [e1; e2])
      | Throw _ => (m1, [e1])
      end
  | Throw _ => (m0, [])
  end.

Definition constructor (id : string) : StatesManager App := (construct id).1.

End Registration.

(** *** Restore *)

Section Restore.
Context {App : Type}.
(** The verifier capability: [jwtVerify(token, key)], giving the payload. *)
Variable jwtVerify : string -> Res TokenPayload.

(** What [restore] has done so far: the application state, the events
    emitted, the [restoredStates] set, the [errors] array, and the calls made
    to providers' [restore] functions, in order. *)
Record Progress := {
  app : App;
  log : list Event;
  restoredStates : list string;
  errors : list string;
  invoked : list (string * Value)
}.

Definition restored_event (ns : string) : Event :=
  {| ev_name := "starling:state:restored";
     ev_message := "State restored for namespace " +:+ ns |}.

Definition restore_failed_event (ns msg : string) : Event :=
  {| ev_name := "starling:state:restore:failed";
     ev_message := "Failed to restore state for " +:+ ns +:+ ": " +:+ msg |}.

(** The [catch] of the first loop. *)
Definition entry_failed (m : StatesManager App) (ns msg : string)
  (a : App) (inv : list (string * Value)) (st : Progress) : Progress :=
  if is_required m ns then
    {| app := a; log := log st; restoredStates := restoredStates st;
       errors := errors st ++
         ["Failed to restore required state " +:+ ns +:+ ": " +:+ msg];
       invoked := inv |}
  else
    {| app := a; log := log st ++ [restore_failed_event ns msg];
       restoredStates := restoredStates st; errors := errors st;
       invoked := inv |}.

(** Body of the loop over [Object.entries(payload.states)]. *)
Definition restore_entry (m : StatesManager App) (st : Progress)
  (entry : string * Value) : Progress :=
  let '(ns, state) := entry in
  match assoc ns (_providers m) with
  | None => st
  | Some provider =>
      let valid := match provider_validate provider with
                   | Some f => f state
                   | None => true
                   end in
      if valid then
        let '(a, outcome) := provider_restore provider state (app st) in
        let inv := invoked st ++ [(ns, state)] in
        match outcome with
        | None =>
            {| app := a; log := log st ++ [restored_event ns];
               restoredStates := restoredStates st ++ [ns];
               errors := errors st; invoked := inv |}
        | Some msg => entry_failed m ns msg a inv st
        end
      else entry_failed m ns "State validation failed" (app st) (invoked st) st
  end.

(** Body of the loop over [this._options]. *)
Definition restore_missing (m : StatesManager App) (st : Progress)
  (entry : string * StateRegistrationOptions) : Progress :=
  let '(ns, options) := entry in
  if required options && negb (mem ns (restoredStates st)) then
    if truthy (defaultState options) then
      match assoc ns (_providers m) with
      | Some provider =>
          let '(a, outcome) := provider_restore provider (defaultState options) (app st) in
          let inv := invoked st ++ [(ns, defaultState options)] in
          match outcome with
          | None =>
              {| app := a; log := log st;
                 restoredStates := restoredStates st ++ [ns];
                 errors := errors st; invoked := inv |}
          | Some msg =>
              {| app := a; log := log st; restoredStates := restoredStates st;
                 errors := errors st ++
                   ["Failed to restore default state for " +:+ ns +:+ ": " +:+ msg];
                 invoked := inv |}
          end
      | None =>
          {| app := app st; log := log st; restoredStates := restoredStates st;
             errors := errors st ++
               ["Failed to restore default state for " +:+ ns +:+
                ": undefined is not an object"];
             invoked := invoked st |}
      end
    else
      {| app := app st; log := log st; restoredStates := restoredStates st;
         errors := errors st ++ ["Required state " +:+ ns +:+ " missing from token"];
         invoked := invoked st |}
  else st.

Definition process (m : StatesManager App) (payload : TokenPayload) (a : App)
  : Progress :=
  fold_left (restore_missing m) (_options m)
    (fold_left (restore_entry m) (states payload)
       {| app := a; log := []; restoredStates := []; errors := [];
          invoked := [] |}).

Record Restored := {
  result : Res unit;
  app_after : App;
  events : list Event;
  restore_calls : list (string * Value)
}.

(** The outer [catch]: report, then rethrow. *)
Definition rethrow (msg : string) (a : App) (evs : list Event)
  (inv : list (string * Value)) : Restored :=
  {| result := Throw msg;
     app_after := a;
     events := evs ++ [{| ev_name := "state:restore:failed";
                          ev_message := "State restoration failed: " +:+ msg |}];
     restore_calls := inv |}.

Definition restore (m : StatesManager App) (token : string) (a : App)
  : Restored :=
  match jwtVerify token with
  | Throw msg => rethrow msg a [] []
  | Ok payload =>
      if decide (starlingId payload = _starling m) then
        let st := process m payload a in
        match errors st with
        | [] => {| result := Ok tt; app_after := app st; events := log st;
                   restore_calls := invoked st |}
        | _ :: _ =>
            rethrow (String.concat ", " (errors st)) (app st) (log st) (invoked st)
        end
      else rethrow "Token starling ID mismatch" a [] []
  end.

(** The application state obtained by making the given calls to the
    registered providers' [restore] functions, one after the other. *)
Fixpoint replay (m : StatesManager App) (calls : list (string * Value))
  (a : App) : App :=
  match calls with
  | [] => a
  | (ns, v) :: r =>
      match assoc ns (_providers m) with
      | Some provider => replay m r (provider_restore provider v a).1
      | None => replay m r a
      end
  end.

End Restore.
End States.

(** ** Starling: the peer's lifecycle *)

Module Peer.

(** A [ServerWebSocket], by identity. *)
Abbreviation Handle := nat.

Record Starling := {
  id : string;
  (** [options.disconnectionTTL] as merged by the constructor. *)
  disconnectionTTL : Z;
  _ws : option Handle;
  _lastConnected : option Z;
  _disconnectedAt : option Z;
  (** the handle returned by [setTimeout] *)
  _disconnectionTimeout : option nat;
  _reconnecting : bool
}.

(** A pending [setTimeout] callback of [unlink]. *)
Record Timer := { timer : nat; due : Z }.

#[global] Instance Timer_eq_dec : EqDecision Timer.
Proof. solve_decision. Defined.

(** The peer together with what it has done to its surroundings: timers
    pending, events emitted, [close] calls received (by reason) and
    transport handles it closed. *)
Record World := {
  peer : Starling;
  timers : list Timer;
  next_timer : nat;
  emitted : list Event;
  closes : list string;
  ws_closed : list Handle
}.

Definition with_peer (p : Starling) (w : World) : World :=
  {| peer := p; timers := timers w; next_timer := next_timer w;
     emitted := emitted w; closes := closes w; ws_closed := ws_closed w |}.

Definition emit (name msg : string) (w : World) : World :=
  {| peer := peer w; timers := timers w; next_timer := next_timer w;
     emitted := emitted w ++ [{| ev_name := name; ev_message := msg |}];
     closes := closes w; ws_closed := ws_closed w |}.

(** Modelled from the spec: [isConnected] is inherited from [BaseStarling],
    which is not part of this repository; the spec gives "current transport
    handle (nullable - null means disconnected)". *)
Definition isConnected (p : Starling) : bool :=
  match _ws p with Some _ => true | None => false end.

(** [new Starling(helios, ws, options)]:
    [super({ disconnectionTTL: 300000, id: randomUUIDv7(), ...options })]. *)
Definition constructor (uuid : string) (ws : Handle)
  (opt_id : option string) (opt_ttl : option Z) : World :=
  {| peer := {| id := default uuid opt_id;
                disconnectionTTL := default 300000%Z opt_ttl;
                _ws := Some ws;
                _lastConnected := None;
                _disconnectedAt := None;
                _disconnectionTimeout := None;
                _reconnecting := false |};
     timers := []; next_timer := 0; emitted := []; closes := [];
     ws_closed := [] |}.

(** [close(reason)].  The calls into the request table, the buffer and the
    peer's data ([cancelAll], [flush], [clear]) leave no trace here; an
    error of [ws.close] is swallowed by the code. *)
Definition close (reason : string) (w : World) : World :=
  let w1 :=
    match _ws (peer w) with
    | Some h =>
        {| peer := peer w; timers := timers w; next_timer := next_timer w;
           emitted := emitted w; closes := closes w;
           ws_closed := ws_closed w ++ [h] |}
    | None => w
    end in
  let w2 := emit "starling:closed"
              ("Starling " +:+ id (peer w) +:+ " closed: " +:+ reason) w1 in
  {| peer := peer w2; timers := timers w2; next_timer := next_timer w2;
     emitted := emitted w2; closes := closes w2 ++ [reason];
     ws_closed := ws_closed w2 |}.

Section WithServer.
(** [this._helios.options?.disconnectionTTL] *)
Variable helios_disconnectionTTL : option Z.

(** [this._helios.options?.disconnectionTTL || 300000] *)
Definition eviction_delay : Z :=
  match helios_disconnectionTTL with
  | Some t => if (t =? 0)%Z then 300000%Z else t
  | None => 300000%Z
  end.

(** [unlink()] *)
Definition unlink (now : Z) (w : World) : World :=
  let p := peer w in
  let w1 := emit "starling:disconnected" ""
              (with_peer {| id := id p; disconnectionTTL := disconnectionTTL p;
                            _ws := None;
                            _lastConnected := _lastConnected p;
                            _disconnectedAt := Some now;
                            _disconnectionTimeout := _disconnectionTimeout p;
                            _reconnecting := _reconnecting p |} w) in
  let t := next_timer w1 in
  let p1 := peer w1 in
  emit "starling:disconnected"
    ("Starling " +:+ id p +:+ " disconnected")
    {| peer := {| id := id p1; disconnectionTTL := disconnectionTTL p1;
                  _ws := _ws p1;
                  _lastConnected := _lastConnected p1;
                  _disconnectedAt := _disconnectedAt p1;
                  _disconnectionTimeout := Some t;
                  _reconnecting := _reconnecting p1 |};
       timers := timers w1 ++ [{| timer := t; due := (now + eviction_delay)%Z |}];
       next_timer := S t;
       emitted := emitted w1; closes := closes w1; ws_closed := ws_closed w1 |}.

(** The callback scheduled by [unlink]. *)
Definition on_timeout (w : World) : World :=
  if isConnected (peer w) then w else close "Connection timed out" w.

Definition clearTimeout (t : nat) (w : World) : World :=
  {| peer := peer w;
     timers := filter (λ x, timer x ≠ t) (timers w);
     next_timer := next_timer w; emitted := emitted w; closes := closes w;
     ws_closed := ws_closed w |}.

Definition set_reconnecting (b : bool) (w : World) : World :=
  let p := peer w in
  with_peer {| id := id p; disconnectionTTL := disconnectionTTL p;
               _ws := _ws p; _lastConnected := _lastConnected p;
               _disconnectedAt := _disconnectedAt p;
               _disconnectionTimeout := _disconnectionTimeout p;
               _reconnecting := b |} w.

Inductive LinkResult :=
| Linked
| Ignored
| Failed (message : string).

(** [link(ws)].  [flush] is the outcome of [this._buffer.flush()], the call
    of the [try] block that reaches into the transport. *)
Definition link (ws : Handle) (now : Z) (flush : Res unit) (w : World)
  : World * LinkResult :=
  if _reconnecting (peer w) then
    (emit "starling:reconnect:duplicate"
       ("Ignoring duplicate reconnection attempt for Starling " +:+ id (peer w)) w,
     Ignored)
  else
    let p := peer w in
    let w1 := with_peer {| id := id p; disconnectionTTL := disconnectionTTL p;
                           _ws := Some ws; _lastConnected := Some now;
                           _disconnectedAt := None;
                           _disconnectionTimeout := _disconnectionTimeout p;
                           _reconnecting := true |} w in
    let w2 :=
      match _disconnectionTimeout p with
      | Some t =>
          let w' := clearTimeout t w1 in
          let p' := peer w' in
          with_peer {| id := id p'; disconnectionTTL := disconnectionTTL p';
                       _ws := _ws p'; _lastConnected := _lastConnected p';
                       _disconnectedAt := _disconnectedAt p';
                       _disconnectionTimeout := None;
                       _reconnecting := _reconnecting p' |} w'
      | None => w1
      end in
    let connected :=
      "Starling " +:+ id p +:+ " connected, processed buffered messages" in
    let w3 := emit "starling:connected" connected w2 in
    match flush with
    | Ok _ =>
        (set_reconnecting false (emit "starling:connected" connected w3), Linked)
    | Throw msg =>
        let w4 := emit "starling:reconnect:failed"
                    ("Reconnection failed for Starling " +:+ id p +:+ ": " +:+ msg)
                    w3 in
        (set_reconnecting false (unlink now w4), Failed msg)
    end.

(** What can happen to a peer. *)
Inductive Op :=
| Link (ws : Handle) (now : Z) (flush : Res unit)
| Unlink (now : Z)
| Close (reason : string)
| Fire (t : Timer) (now : Z).

(** A timer fires once, when due, unless it was cleared. *)
Definition fire (t : Timer) (now : Z) (w : World) : option World :=
  if decide (t ∈ timers w) then
    if (due t <=? now)%Z then
      Some (on_timeout
              {| peer := peer w;
                 timers := filter (λ x, timer x ≠ timer t) (timers w);
                 next_timer := next_timer w; emitted := emitted w;
                 closes := closes w; ws_closed := ws_closed w |})
    else None
  else None.

Definition step (o : Op) (w : World) : option World :=
  match o with
  | Link ws now flush => Some (link ws now flush w).1
  | Unlink now => Some (unlink now w)
  | Close reason => Some (close reason w)
  | Fire t now => fire t now w
  end.

Inductive reachable (w0 : World) : World -> Prop :=
| reachable_new : reachable w0 w0
| reachable_step w o w' :
    reachable w0 w -> step o w = Some w' -> reachable w0 w'.

End WithServer.
End Peer.

(** ** StarlingsManager: the connection registry *)

Module Registry.
Import States.

Abbreviation Handle := Peer.Handle.

(** A [Starling] object is shared by reference between the two maps. *)
Abbreviation Ref := nat.

(** What may be passed where a [Map] key is expected. *)
Inductive Key :=
| KHandle (ws : Handle)
| KString (s : string)
| KNull.

Record Object (App : Type) := {
  world : Peer.World;
  _states : StatesManager App;
  data : App
}.
Arguments world {App} _.
Arguments _states {App} _.
Arguments data {App} _.

Record StarlingsManager (App : Type) := {
  heap : gmap Ref (Object App);
  _connections : gmap Handle Ref;
  _starlingsById : gmap string Ref;
  (** [helios.events] *)
  log : list Event
}.
Arguments heap {App} _.
Arguments _connections {App} _.
Arguments _starlingsById {App} _.
Arguments log {App} _.

Section Manager.
Context {App : Type}.
Variable jwtVerify : string -> Res TokenPayload.
Variable helios_disconnectionTTL : option Z.

Definition emit (name msg : string) (mgr : StarlingsManager App)
  : StarlingsManager App :=
  {| heap := heap mgr; _connections := _connections mgr;
     _starlingsById := _starlingsById mgr;
     log := log mgr ++ [{| ev_name := name; ev_message := msg |}] |}.

(** [get(ws)] looks [ws] up in [_connections], whose keys are handles. *)
Definition get (k : Key) (mgr : StarlingsManager App) : option Ref :=
  match k with
  | KHandle ws => _connections mgr !! ws
  | KString _ | KNull => None
  end.

(** [getById(id)] looks [id] up in [_starlingsById], whose keys are ids. *)
Definition getById (k : Key) (mgr : StarlingsManager App) : option Ref :=
  match k with
  | KString id => _starlingsById mgr !! id
  | KHandle _ | KNull => None
  end.

(** Modelled from the spec: the [ws] accessor is inherited from
    [BaseStarling], which is not part of this repository; it is taken to
    give the "current transport handle (nullable)". *)
Definition ws_key (o : Object App) : Key :=
  match Peer._ws (Peer.peer (world o)) with
  | Some ws => KHandle ws
  | None => KNull
  end.

Definition delete_connection (k : Key) (mgr : StarlingsManager App)
  : StarlingsManager App :=
  match k with
  | KHandle ws =>
      {| heap := heap mgr; _connections := delete ws (_connections mgr);
         _starlingsById := _starlingsById mgr; log := log mgr |}
  | KString _ | KNull => mgr
  end.

(** [remove(starling)] *)
Definition remove (r : Ref) (mgr : StarlingsManager App)
  : StarlingsManager App * bool :=
  match heap mgr !! r with
  | None => (mgr, false)
  | Some o =>
      let id := Peer.id (Peer.peer (world o)) in
      match _starlingsById mgr !! id with
      | None => (mgr, false)
      | Some _ =>
          let mgr1 := delete_connection (ws_key o) mgr in
          (emit "starling:removed" ("Starling " +:+ id +:+ " removed")
             {| heap := heap mgr1; _connections := _connections mgr1;
                _starlingsById := delete id (_starlingsById mgr1);
                log := log mgr1 |},
           true)
      end
  end.

(** [_attemptRecovery(ws, token)].  [flush] is the outcome of the buffer
    flush inside [link], should it come to that.  The [connection:recovered]
    notification sent to the peer leaves no trace here. *)
Definition _attemptRecovery (ws : Handle) (token : string) (now : Z)
  (flush : Res unit) (mgr : StarlingsManager App)
  : StarlingsManager App * Res (option Ref) :=
  match jwtVerify token with
  | Throw msg => (mgr, Throw msg)
  | Ok payload =>
      match _starlingsById mgr !! starlingId payload with
      | None => (mgr, Ok None)
      | Some r =>
          match heap mgr !! r with
          | None => (mgr, Ok None) (* no reference dangles *)
          | Some o =>
              let mgr1 :=
                match get (ws_key o) mgr with
                | Some _ => delete_connection (ws_key o) mgr
                | None => mgr
                end in
              let '(w, outcome) :=
                Peer.link helios_disconnectionTTL ws now flush (world o) in
              let o' := {| world := w; _states := _states o; data := data o |} in
              let mgr2 := {| heap := <[r := o']> (heap mgr1);
                             _connections := _connections mgr1;
                             _starlingsById := _starlingsById mgr1;
                             log := log mgr1 |} in
              match outcome with
              | Peer.Failed msg => (mgr2, Throw msg)
              | Peer.Linked | Peer.Ignored =>
                  (emit "starling:recovered"
                     ("Starling " +:+ Peer.id (Peer.peer w) +:+ " recovered")
                     {| heap := heap mgr2;
                        _connections := <[ws := r]> (_connections mgr2);
                        _starlingsById := _starlingsById mgr2;
                        log := log mgr2 |},
                   Ok (Some r))
              end
          end
      end
  end.

(** [if (recoverToken)] *)
Definition given (recover : option string) : option string :=
  match recover with
  | Some token => if String.eqb token "" then None else Some token
  | None => None
  end.

(** [_createNewStarling(ws, recoverToken)].  [uuid] is the id the
    constructor draws, [init] the application state a peer starts with. *)
Definition _createNewStarling (ws : Handle) (recover : option string)
  (uuid : string) (init : App) (mgr : StarlingsManager App)
  : StarlingsManager App * Ref :=
  let w := Peer.constructor uuid ws None None in
  let '(sm, registered) := construct (App := App) uuid in
  let log1 := log mgr ++ registered in
  let '(a, log2) :=
    match given recover with
    | Some token =>
        let r := restore jwtVerify sm token init in
        (app_after r,
         log1 ++ events r ++
         match result r with
         | Throw msg =>
             [{| ev_name := "starling:state:restore:failed";
                 ev_message := "State restoration failed: " +:+ msg |}]
         | Ok _ => []
         end)
    | None => (init, log1)
    end in
  let r := fresh (dom (heap mgr)) in
  (emit "starling:new" ("New Starling " +:+ uuid +:+ " created")
     {| heap := <[r := {| world := w; _states := sm; data := a |}]> (heap mgr);
        _connections := <[ws := r]> (_connections mgr);
        _starlingsById := <[uuid := r]> (_starlingsById mgr);
        log := log2 |},
   r).

(** [handleConnection(ws)], with [recover] standing for [ws.data?.recover]. *)
Definition handleConnection (ws : Handle) (recover : option string)
  (uuid : string) (init : App) (now : Z) (flush : Res unit)
  (mgr : StarlingsManager App) : StarlingsManager App * Res unit :=
  let '(mgr1, shouldCreateNewStarling) :=
    match given recover with
    | Some token =>
        match _attemptRecovery ws token now flush mgr with
        | (mgr', Ok (Some _)) => (mgr', false)
        | (mgr', Ok None) => (mgr', true)
        | (mgr', Throw msg) =>
            (emit "starling:recovery:failed" ("Recovery failed: " +:+ msg) mgr',
             true)
        end
    | None => (mgr, true)
    end in
  if shouldCreateNewStarling
  then ((_createNewStarling ws recover uuid init mgr1).1, Ok tt)
  else (mgr1, Ok tt).

(** The server's [close] handler for a transport handle:
    [const starling = this._starlings.get(ws); if (starling) starling.unlink()]. *)
Definition handlers_close (ws : Handle) (now : Z) (mgr : StarlingsManager App)
  : StarlingsManager App :=
  match get (KHandle ws) mgr with
  | Some r =>
      match heap mgr !! r with
      | Some o =>
          {| heap := <[r := {| world := Peer.unlink helios_disconnectionTTL now (world o);
                               _states := _states o; data := data o |}]> (heap mgr);
             _connections := _connections mgr;
             _starlingsById := _starlingsById mgr;
             log := log mgr |}
      | None => mgr
      end
  | None => mgr
  end.

Definition empty : StarlingsManager App :=
  {| heap := ∅; _connections := ∅; _starlingsById := ∅; log := [] |}.

End Manager.
End Registry.

(** ** ProxyManager: proxy routing *)

Module Proxy.

Abbreviation Key := Registry.Key.
Abbreviation Ref := Registry.Ref.

Record Message := {
  type : string;
  requestId : string;
  payload : Value
}.

(** The peer a proxied message came from, as far as the engine looks at
    it. *)
Record Source := { source_id : string }.

Record ProxyInfo := { sourceId : string; timestamp : Z }.

(** What the engine hands to a peer's [send]. *)
Inductive Outgoing :=
| Forwarded (m : Message) (info : ProxyInfo) (route : list string)
| Completed (response : Message) (info : ProxyInfo)
| ProxyFailure (request : string) (message : string).

Inductive Recipient :=
| ToPeer (r : Ref)
| ToSource (id : string).

Record RuleOptions := {
  allowRequests : bool;
  allowNotifications : bool;
  timeout : Z
}.

Record Rule := {
  handler : Message -> Source -> Res Key;
  options : RuleOptions
}.

Record Metrics := {
  totalProxied : Z;
  activeProxies : Z;
  deniedProxies : Z;
  successfulProxies : Z;
  byType_request : Z;
  byType_notification : Z;
  latencies : list Z
}.

Record ProxyManager := {
  _rules : option Rule;
  _metrics : Metrics;
  _activeProxies : gmap string ProxyInfo;
  (** [_events] *)
  events : list Event;
  (** pending [setTimeout] callbacks of [_trackProxyRequest]: the request
      they watch and when they are due *)
  timers : list (string * Z);
  (** messages handed to a peer's [send], in order *)
  sent : list (Recipient * Outgoing)
}.

Definition with_metrics (f : Metrics -> Metrics) (pm : ProxyManager)
  : ProxyManager :=
  {| _rules := _rules pm; _metrics := f (_metrics pm);
     _activeProxies := _activeProxies pm; events := events pm;
     timers := timers pm; sent := sent pm |}.

Definition with_active (a : gmap string ProxyInfo) (pm : ProxyManager)
  : ProxyManager :=
  {| _rules := _rules pm; _metrics := _metrics pm; _activeProxies := a;
     events := events pm; timers := timers pm; sent := sent pm |}.

Definition emit (name msg : string) (pm : ProxyManager) : ProxyManager :=
  {| _rules := _rules pm; _metrics := _metrics pm;
     _activeProxies := _activeProxies pm;
     events := events pm ++ [{| ev_name := name; ev_message := msg |}];
     timers := timers pm; sent := sent pm |}.

Definition deliver (to : Recipient) (m : Outgoing) (pm : ProxyManager)
  : ProxyManager :=
  {| _rules := _rules pm; _metrics := _metrics pm;
     _activeProxies := _activeProxies pm; events := events pm;
     timers := timers pm; sent := sent pm ++ [(to, m)] |}.

Definition add_active (d : Z) (m : Metrics) : Metrics :=
  {| totalProxied := totalProxied m; activeProxies := activeProxies m + d;
     deniedProxies := deniedProxies m; successfulProxies := successfulProxies m;
     byType_request := byType_request m;
     byType_notification := byType_notification m; latencies := latencies m |}.

Definition count_total (m : Metrics) : Metrics :=
  {| totalProxied := totalProxied m + 1; activeProxies := activeProxies m;
     deniedProxies := deniedProxies m; successfulProxies := successfulProxies m;
     byType_request := byType_request m;
     byType_notification := byType_notification m; latencies := latencies m |}.

Definition count_denied (m : Metrics) : Metrics :=
  {| totalProxied := totalProxied m; activeProxies := activeProxies m;
     deniedProxies := deniedProxies m + 1;
     successfulProxies := successfulProxies m;
     byType_request := byType_request m;
     byType_notification := byType_notification m; latencies := latencies m |}.

Definition count_successful (m : Metrics) : Metrics :=
  {| totalProxied := totalProxied m; activeProxies := activeProxies m;
     deniedProxies := deniedProxies m;
     successfulProxies := successfulProxies m + 1;
     byType_request := byType_request m;
     byType_notification := byType_notification m; latencies := latencies m |}.

(** [this._metrics.byType[message.type]++], for the two kinds the metrics
    are read for. *)
Definition count_type (t : string) (m : Metrics) : Metrics :=
  {| totalProxied := totalProxied m; activeProxies := activeProxies m;
     deniedProxies := deniedProxies m; successfulProxies := successfulProxies m;
     byType_request :=
       if String.eqb t "request" then byType_request m + 1 else byType_request m;
     byType_notification :=
       if String.eqb t "notification" then byType_notification m + 1
       else byType_notification m;
     latencies := latencies m |}.

(** [_updateMetrics(startTime)]: a rolling window of 100 latencies. *)
Definition record_latency (latency : Z) (m : Metrics) : Metrics :=
  let l := latencies m ++ [latency] in
  {| totalProxied := totalProxied m; activeProxies := activeProxies m;
     deniedProxies := deniedProxies m; successfulProxies := successfulProxies m;
     byType_request := byType_request m;
     byType_notification := byType_notification m;
     latencies := if (100 <? length l)%nat then tail l else l |}.

Definition initial : ProxyManager :=
  {| _rules := None;
     _metrics := {| totalProxied := 0; activeProxies := 0; deniedProxies := 0;
                    successfulProxies := 0; byType_request := 0;
                    byType_notification := 0; latencies := [] |};
     _activeProxies := ∅; events := []; timers := []; sent := [] |}.

(** [setRule(rule)], the options already merged over the defaults
    [{ allowRequests: true, allowNotifications: true, timeout: 30000 }]. *)
Definition setRule (rule : option Rule) (pm : ProxyManager)
  : ProxyManager * Res unit :=
  match rule with
  | None => (pm, Throw "Proxy rule must have a handler function")
  | Some r =>
      (emit "proxy:rule:set" "Proxy rules configured"
         {| _rules := Some r; _metrics := _metrics pm;
            _activeProxies := _activeProxies pm; events := events pm;
            timers := timers pm; sent := sent pm |},
       Ok tt)
  end.

Definition falsy (k : Key) : bool :=
  match k with
  | Registry.KNull => true
  | Registry.KString s => String.eqb s ""
  | Registry.KHandle _ => false
  end.

Section WithServer.
(** [this._helios.starlings.has] and [this._helios.starlings.get], whatever
    object [this._helios.starlings] is. *)
Variable starlings_has : Key -> Res bool.
Variable starlings_get : Key -> option Ref.
(** How the promise returned by a peer's [send] settles where the engine
    awaits it. *)
Variable send : Ref -> Outgoing -> Res unit.

Definition _validateProxy (message : Message) (pm : ProxyManager) : Res unit :=
  match _rules pm with
  | None => Throw "No proxy rules configured"
  | Some rule =>
      if String.eqb (type message) "request" && negb (allowRequests (options rule))
      then Throw "Request proxying is disabled"
      else if String.eqb (type message) "notification"
              && negb (allowNotifications (options rule))
      then Throw "Notification proxying is disabled"
      else Ok tt
  end.

Definition denied (pm : ProxyManager) : ProxyManager * Res (option Ref) :=
  (with_metrics count_denied pm, Throw "Proxy target not found or denied").

Definition _resolveTarget (message : Message) (source : Source)
  (pm : ProxyManager) : ProxyManager * Res (option Ref) :=
  match _rules pm with
  | None => (pm, Throw "null is not an object")
  | Some rule =>
      match handler rule message source with
      | Throw msg => (pm, Throw msg)
      | Ok target =>
          if falsy target then denied pm
          else match starlings_has target with
               | Throw msg => (pm, Throw msg)
               | Ok false => denied pm
               | Ok true => (pm, Ok (starlings_get target))
               end
      end
  end.

Definition _enrichMessage (message : Message) (source : Source) (now : Z)
  : Outgoing :=
  Forwarded message {| sourceId := source_id source; timestamp := now |}
    [source_id source].

Definition _trackProxyRequest (message : Message) (source : Source) (now : Z)
  (pm : ProxyManager) : ProxyManager :=
  {| _rules := _rules pm; _metrics := _metrics pm;
     _activeProxies :=
       <[requestId message := {| sourceId := source_id source; timestamp := now |}]>
         (_activeProxies pm);
     events := events pm;
     timers := timers pm ++
       [(requestId message,
         (now + match _rules pm with
                | Some rule => timeout (options rule)
                | None => 0
                end)%Z)];
     sent := sent pm |}.

Definition _sendToTarget (kind : string) (message : Outgoing)
  (target : option Ref) (pm : ProxyManager) : ProxyManager * Res unit :=
  match target with
  | None => (pm, Throw "Failed to send to target: undefined is not an object")
  | Some r =>
      match send r message with
      | Ok _ => (with_metrics (count_type kind) (deliver (ToPeer r) message pm), Ok tt)
      | Throw msg => (pm, Throw ("Failed to send to target: " +:+ msg))
      end
  end.

Definition _handleProxyError (msg : string) (message : Message)
  (source : Source) (pm : ProxyManager) : ProxyManager :=
  let pm1 := emit "proxy:error" ("Proxy error: " +:+ msg) pm in
  if String.eqb (type message) "request"
  then deliver (ToSource (source_id source))
         (ProxyFailure (requestId message) msg) pm1
  else pm1.

(** The [try] block of [handleProxy]. *)
Definition forward (message : Message) (source : Source) (start now finish : Z)
  (pm : ProxyManager) : ProxyManager * Res bool :=
  match _validateProxy message pm with
  | Throw msg => (pm, Throw msg)
  | Ok _ =>
      match _resolveTarget message source pm with
      | (pm1, Throw msg) => (pm1, Throw msg)
      | (pm1, Ok target) =>
          let proxyMessage := _enrichMessage message source now in
          let pm2 := if String.eqb (type message) "request"
                     then _trackProxyRequest message source now pm1 else pm1 in
          match _sendToTarget (type message) proxyMessage target pm2 with
          | (pm3, Throw msg) => (pm3, Throw msg)
          | (pm3, Ok _) =>
              (with_metrics (record_latency (finish - start)) pm3, Ok true)
          end
      end
  end.

(** [handleProxy(message, source)]; [start], [now] and [finish] are the
    readings of the clock on entry, while enriching and tracking, and when
    the latency is taken. *)
Definition handleProxy (message : Message) (source : Source)
  (start now finish : Z) (pm : ProxyManager) : ProxyManager * Res bool :=
  let pm0 := with_metrics (add_active 1) (with_metrics count_total pm) in
  let '(pm1, r) :=
    match forward message source start now finish pm0 with
    | (pm', Ok b) => (pm', Ok b)
    | (pm', Throw msg) => (_handleProxyError msg message source pm', Ok false)
    end in
  (with_metrics (add_active (-1)) pm1, r).

(** [handleProxyResponse(response, source)] *)
Definition handleProxyResponse (response : Message) (pm : ProxyManager)
  : ProxyManager * Res unit :=
  match _activeProxies pm !! requestId response with
  | None => (pm, Throw "Unknown proxy response")
  | Some proxyInfo =>
      let '(pm1, r) :=
        match starlings_get (Registry.KString (sourceId proxyInfo)) with
        | None => (pm, Throw "Source client disconnected")
        | Some sourceClient =>
            let out := Completed response proxyInfo in
            match send sourceClient out with
            | Throw msg => (pm, Throw msg)
            | Ok _ =>
                (with_metrics count_successful
                   (deliver (ToPeer sourceClient) out pm), Ok tt)
            end
        end in
      (with_active (delete (requestId response) (_activeProxies pm1)) pm1, r)
  end.

(** [_handleProxyTimeout(message)] *)
Definition _handleProxyTimeout (request : string) (pm : ProxyManager)
  : ProxyManager :=
  emit "proxy:timeout" ("Proxy request " +:+ request +:+ " timed out")
    (with_active (delete request (_activeProxies pm)) pm).

(** A timeout callback of [_trackProxyRequest] runs, once, when due. *)
Definition fire (t : string * Z) (now : Z) (pm : ProxyManager)
  : option ProxyManager :=
  match list_find (λ x, x = t) (timers pm) with
  | Some (i, _) =>
      if (t.2 <=? now)%Z then
        let pm1 := {| _rules := _rules pm; _metrics := _metrics pm;
                      _activeProxies := _activeProxies pm; events := events pm;
                      timers := delete i (timers pm); sent := sent pm |} in
        Some (match _activeProxies pm1 !! t.1 with
              | Some _ => _handleProxyTimeout t.1 pm1
              | None => pm1
              end)
      else None
  | None => None
  end.

End WithServer.
End Proxy.

(** ** Accessors, runs and middlewares *)

(** *** StatesManager: namespaces *)

Module StatesQueries.
Import States.

Section Queries.
Context {App : Type}.

(** [get namespaces()]: [Array.from(this._providers.keys())] *)
Definition namespaces (m : StatesManager App) : list string :=
  map fst (_providers m).

(** [hasNamespace(namespace)]: [this._providers.has(namespace)] *)
Definition hasNamespace (ns : string) (m : StatesManager App) : bool :=
  match assoc ns (_providers m) with
  | Some _ => true
  | None => false
  end.

(** The managers a program can hold: what the constructor made, extended by
    the calls of [register] that returned. *)
Inductive built (id : string) : StatesManager App -> Prop :=
| built_new : built id (constructor id)
| built_register m ns provider options m' e :
    built id m -> register ns provider options m = Ok (m', e) -> built id m'.

End Queries.
End StatesQueries.

(** *** StarlingsManager: queries, broadcast and runs *)

Module RegistryQueries.
Import States Registry.

Section Queries.
Context {App : Type}.
Variable jwtVerify : string -> Res TokenPayload.
Variable helios_disconnectionTTL : option Z.

(** [Array.from(this._starlingsById.values())], each reference with the
    object it points to.  A JavaScript [Map] lists its values in insertion
    order; the finite map used here does not keep that order, so what is
    defined from [values] is to be read up to the order of the list. *)
Definition values (mgr : StarlingsManager App) : list (Ref * Object App) :=
  omap (λ kr : string * Ref, (λ o, (kr.2, o)) <$> heap mgr !! kr.2)
       (map_to_list (_starlingsById mgr)).

(** [filter(predicate)] *)
Definition filter (predicate : Object App -> bool) (mgr : StarlingsManager App)
  : list (Ref * Object App) :=
  List.filter (λ x, predicate x.2) (values mgr).

Definition connected (x : Ref * Object App) : bool :=
  Peer.isConnected (Peer.peer (world x.2)).

(** [broadcast(topic, data, filter = null)]: the calls of [notify] made, by
    receiver.  [notify] belongs to [BaseStarling]; it is taken to return. *)
Definition broadcast (topic : string) (data : Value)
  (filter_ : option (Object App -> bool)) (mgr : StarlingsManager App)
  : list (Ref * (string * Value)) :=
  let targets := match filter_ with
                 | Some predicate => filter predicate mgr
                 | None => values mgr
                 end in
  map (λ x, (x.1, (topic, data))) (List.filter connected targets).

(** [get connectedCount()] *)
Definition connectedCount (mgr : StarlingsManager App) : nat :=
  length (List.filter connected (values mgr)).

(** [get totalCount()] *)
Definition totalCount (mgr : StarlingsManager App) : nat :=
  size (_starlingsById mgr).

(** What can happen to the registry: a transport opens
    ([handleConnection]), a transport closes (the server's [close]
    handler), a peer is removed, an eviction timer of a peer fires. *)
Inductive Op :=
| Open (ws : Handle) (recover : option string) (uuid : string) (init : App)
    (now : Z) (flush : Res unit)
| Closed (ws : Handle) (now : Z)
| Remove (r : Ref)
| Timeout (r : Ref) (t : Peer.Timer) (now : Z).

Definition timeout (r : Ref) (t : Peer.Timer) (now : Z)
  (mgr : StarlingsManager App) : option (StarlingsManager App) :=
  match heap mgr !! r with
  | Some o =>
      match Peer.fire t now (world o) with
      | Some w =>
          Some {| heap := <[r := {| world := w; _states := _states o;
                                    data := data o |}]> (heap mgr);
                  _connections := _connections mgr;
                  _starlingsById := _starlingsById mgr;
                  log := log mgr |}
      | None => None
      end
  | None => None
  end.

Definition step (o : Op) (mgr : StarlingsManager App)
  : option (StarlingsManager App) :=
  match o with
  | Open ws recover uuid init now flush =>
      Some (handleConnection jwtVerify helios_disconnectionTTL
              ws recover uuid init now flush mgr).1
  | Closed ws now => Some (handlers_close helios_disconnectionTTL ws now mgr)
  | Remove r => Some (remove r mgr).1
  | Timeout r t now => timeout r t now mgr
  end.

Inductive reachable : StarlingsManager App -> Prop :=
| reachable_empty : reachable Registry.empty
| reachable_step mgr o mgr' :
    reachable mgr -> step o mgr = Some mgr' -> reachable mgr'.

End Queries.
End RegistryQueries.

(** *** ProxyManager: runs *)

Module ProxyRuns.
Import Proxy.

Section WithServer.
Variable starlings_has : Key -> Res bool.
Variable starlings_get : Key -> option Ref.
Variable send : Ref -> Outgoing -> Res unit.

(** The calls made on a proxy manager, and its timers firing. *)
Inductive Op :=
| SetRule (rule : option Rule)
| HandleProxy (message : Message) (source : Source) (start now finish : Z)
| HandleProxyResponse (response : Message)
| Fire (t : string * Z) (now : Z).

Definition step (o : Op) (pm : ProxyManager) : option ProxyManager :=
  match o with
  | SetRule rule => Some (setRule rule pm).1
  | HandleProxy message source start now finish =>
      Some (handleProxy starlings_has starlings_get send
              message source start now finish pm).1
  | HandleProxyResponse response =>
      Some (handleProxyResponse starlings_get send response pm).1
  | Fire t now => fire t now pm
  end.

Inductive reachable : ProxyManager -> Prop :=
| reachable_initial : reachable initial
| reachable_step pm o pm' :
    reachable pm -> step o pm = Some pm' -> reachable pm'.

End WithServer.
End ProxyRuns.

(** *** The server's proxy middlewares (config/proxy.config.js, core/helios.js) *)

Module Middlewares.

Abbreviation Ref := Registry.Ref.

(** What a middleware gives back, as far as the test
    [!target || !(target instanceof Starling)] tells values apart. *)
Inductive Returned :=
| Nothing
| Target (r : Ref)
| Other.

(** An error caught by a handler: [error.code] and [error.message]. *)
Record Failure := { failure_code : option string; failure_message : option string }.

Inductive Outcome (A : Type) :=
| Returns (a : A)
| Throws (e : Failure).
Arguments Returns {A} a.
Arguments Throws {A} e.

(** The fields of a context the handlers read; [source] is
    [context.starling.id], [body] the [payload], [data] or [details],
    [error] the [code] and [message] of [context.error]. *)
Record Context := {
  source : string;
  requestId : string;
  method : string;
  topic : string;
  body : Value;
  error : option (string * string);
  code : string;
  message : string
}.

Abbreviation Middleware := (Context -> Outcome Returned).

(** [helios._proxies]; a field that is [false] or unset is [None]. *)
Record ProxiesMiddlewares := {
  onRequest : option Middleware;
  onResponse : option Middleware;
  onNotification : option Middleware;
  onErrorMessage : option Middleware
}.

(** The constructor of [Helios] starts with every middleware [false]. *)
Definition initial : ProxiesMiddlewares :=
  {| onRequest := None; onResponse := None; onNotification := None;
     onErrorMessage := None |}.

(** The argument of [useProxies]: a key may be absent ([None]) or present
    with a value. *)
Record Given := {
  given_onRequest : option (option Middleware);
  given_onResponse : option (option Middleware);
  given_onNotification : option (option Middleware);
  given_onErrorMessage : option (option Middleware)
}.

(** [useProxies(proxies = {})]:
    [this._proxies = { ...this._proxies, ...proxies }] *)
Definition useProxies (proxies : Given) (p : ProxiesMiddlewares)
  : ProxiesMiddlewares :=
  {| onRequest := default (onRequest p) (given_onRequest proxies);
     onResponse := default (onResponse p) (given_onResponse proxies);
     onNotification := default (onNotification p) (given_onNotification proxies);
     onErrorMessage := default (onErrorMessage p) (given_onErrorMessage proxies) |}.

(** The message built for the target, by the constructor function called
    and its arguments; the last argument is [peer.source]. *)
Inductive Relayed :=
| Request (method requestId : string) (payload : Value) (from : string)
| ErrorResponse (requestId code message : string) (from : string)
| SuccessResponse (requestId : string) (data : Value) (from : string)
| Notification (topic : string) (data : Value) (from : string)
| ApplicationError (code message : string) (details : Value) (from : string).

(** What a handler has done when it returns. *)
Inductive Effect :=
| Relay (target : Ref) (m : Relayed)
| ContextError (code message : string)
| SendError (code message : string).

(** [a || b] on an optional string. *)
Definition or_else (a : option string) (b : string) : string :=
  match a with
  | Some s => if String.eqb s "" then b else s
  | None => b
  end.

Section Handlers.
(** [CommonErrors.PROXY_FORBIDDEN] and [CommonErrors.PROXY_ERROR], constants
    of another package. *)
Variable PROXY_FORBIDDEN : string.
Variable PROXY_ERROR : string.
(** Whether [target.send(message)] returns or throws. *)
Variable send : Ref -> Relayed -> option Failure.

(** The part the four handlers share: the test of the middleware, the [try]
    block around its call and the call of [send], and the [catch].
    [report] is [context.error] or [starling.sendError], both taken to
    return.  A middleware is called with the context and the registry; here
    it is a function of the context, the registry being part of it. *)
Definition relay (handler : option Middleware) (report : string -> string -> Effect)
  (disabled failed : string) (build : Context -> Relayed) (context : Context)
  : Effect :=
  match handler with
  | None => report PROXY_FORBIDDEN disabled
  | Some h =>
      match h context with
      | Throws e =>
          report (or_else (failure_code e) PROXY_ERROR)
                 (or_else (failure_message e) failed)
      | Returns Nothing | Returns Other =>
          report PROXY_FORBIDDEN "Invalid proxy target returned"
      | Returns (Target r) =>
          match send r (build context) with
          | None => Relay r (build context)
          | Some e =>
              report (or_else (failure_code e) PROXY_ERROR)
                     (or_else (failure_message e) failed)
          end
      end
  end.

(** [proxyConfiguration.request] *)
Definition request (p : ProxiesMiddlewares) (context : Context) : Effect :=
  relay (onRequest p) ContextError
    "Proxy is disabled for requests by the server" "Proxy request failed"
    (λ c, Request (method c) (requestId c) (body c) (source c)) context.

(** [proxyConfiguration.response] *)
Definition response (p : ProxiesMiddlewares) (context : Context) : Effect :=
  relay (onResponse p) SendError
    "Proxy is disabled for responses by the server" "Proxy response failed"
    (λ c, match error c with
          | Some (code, message) =>
              ErrorResponse (requestId c) code message (source c)
          | None => SuccessResponse (requestId c) (body c) (source c)
          end) context.

(** [proxyConfiguration.notification] *)
Definition notification (p : ProxiesMiddlewares) (context : Context) : Effect :=
  relay (onNotification p) SendError
    "Proxy is disabled for notifications by the server"
    "Proxy notification failed"
    (λ c, Notification (topic c) (body c) (source c)) context.

(** [proxyConfiguration.errorMessage] *)
Definition errorMessage (p : ProxiesMiddlewares) (context : Context) : Effect :=
  relay (onNotification p) SendError
    "Proxy is disabled for notifications by the server"
    "Proxy error message failed"
    (λ c, ApplicationError (code c) (message c) (body c) (source c)) context.

End Handlers.
End Middlewares.

(** * Properties *)

(** ** Single-flight token generation *)

Module StatesFacts.
Import States.

Lemma mem_elem_of (x : string) (l : list string) : mem x l = true ↔ x ∈ l.
Proof.
  unfold mem. rewrite existsb_exists, list_elem_of_In. split.
  - intros (y & Hy & He). apply String.eqb_eq in He. by subst.
  - intros H. exists x. split; [done | apply String.eqb_refl].
Qed.

Section Generation.
Context {App : Type}.
Variable sign : TokenPayload -> string -> Res string.
Variable m : StatesManager App.

Abbreviation lock rt := (_stateGenerationLock (manager rt)).
Abbreviation current rt := (_currentGenerationId (manager rt)).

Record Inv (rt : Runtime App) : Prop := {
  inv_current : current rt = lock rt;
  inv_holder : ∀ g, in_flight rt g ↔ lock rt = Some g;
  inv_resolved : ∀ g, g ∈ resolved rt ↔ settled rt g;
  inv_wait : ∀ g p, waiting_on rt g p → in_flight rt p ∨ settled rt p
}.

Lemma kind_insert (rt : Runtime App) g f g' :
  kind <$> <[g := f]> (frames rt) !! g' =
  if decide (g = g') then Some (kind f) else kind <$> frames rt !! g'.
Proof. rewrite lookup_insert. by case_decide. Qed.

Lemma Inv_idle : Inv (idle m).
Proof.
  split; unfold in_flight, waiting_on, settled; simpl; intros;
    rewrite ?lookup_empty; simpl; try done.
  split; [by intros ?%elem_of_nil | done].
Qed.

(** Replacing a frame by one of the same kind. *)
Lemma Inv_same_kind (rt : Runtime App) g f f' ev :
  Inv rt → frames rt !! g = Some f → kind f' = kind f →
  Inv {| manager := manager rt; frames := <[g := f']> (frames rt);
         resolved := resolved rt; emitted := ev |}.
Proof.
  intros [H1 H2 H3 H4] Hg Hk.
  assert (Hsame : ∀ g', kind <$> <[g := f']> (frames rt) !! g' = kind <$> frames rt !! g').
  { intros g'. rewrite kind_insert. case_decide; [|done]. subst. by rewrite Hg, Hk. }
  split; simpl; try done; unfold in_flight, waiting_on, settled in *; simpl;
    intros; rewrite ?Hsame in *; eauto.
Qed.

Lemma Inv_wait_frame rt g opts p :
  Inv rt → lock rt = Some p →
  (frames rt !! g = None ∨ ∃ o q, frames rt !! g = Some (AwaitLock o q)) →
  Inv (put_frame g (AwaitLock opts p) rt).
Proof.
  intros [H1 H2 H3 H4] Hp Hg.
  assert (Hnf : ¬ in_flight rt g ∧ ¬ settled rt g).
  { unfold in_flight, settled. destruct Hg as [-> | (o & q & ->)]; by simpl. }
  destruct Hnf as [Hnf Hns].
  assert (Hfp : in_flight rt p) by by apply H2.
  split; simpl; try done.
  - intros g'. rewrite <- H2. unfold in_flight in *. simpl.
    rewrite kind_insert. case_decide; [subst|done]. naive_solver.
  - intros g'. rewrite H3. unfold settled in *. simpl.
    rewrite kind_insert. case_decide; [subst|done]. naive_solver.
  - intros g' p'. unfold waiting_on, in_flight, settled in *. simpl.
    rewrite !kind_insert. intros Hw.
    repeat case_decide; simpl in *; simplify_eq; eauto; try done.
    destruct (H4 _ _ Hw); done.
Qed.

Lemma Inv_acquire rt g opts now :
  Inv rt → lock rt = None →
  (frames rt !! g = None ∨ ∃ o q, frames rt !! g = Some (AwaitLock o q)) →
  Inv {| manager := set_lock (Some g) (Some g) (manager rt);
         frames := <[g := Gathering opts now (map fst (_providers (manager rt))) [] []]>
                     (frames rt);
         resolved := resolved rt; emitted := emitted rt |}.
Proof.
  intros [H1 H2 H3 H4] Hl Hg.
  assert (Hns : ¬ settled rt g).
  { unfold settled. destruct Hg as [-> | (o & q & ->)]; by simpl. }
  assert (Hnone : ∀ g', ¬ in_flight rt g').
  { intros g' Hf. apply H2 in Hf. congruence. }
  split; simpl; try done.
  - intros g'. unfold in_flight in *. simpl.
    rewrite kind_insert. case_decide; [subst; naive_solver|].
    split; [intros Hf; by apply Hnone in Hf | congruence].
  - intros g'. rewrite H3. unfold settled in *. simpl.
    rewrite kind_insert. case_decide; [subst|done]. naive_solver.
  - intros g' p'. unfold waiting_on, in_flight, settled in *. simpl.
    rewrite !kind_insert. intros Hw.
    repeat case_decide; simpl in *; simplify_eq; eauto; try done.
    all: destruct (H4 _ _ Hw) as [Hf | Hs]; [by apply Hnone in Hf | by right].
Qed.

Lemma Inv_enter rt g opts now :
  Inv rt →
  (frames rt !! g = None ∨ ∃ o q, frames rt !! g = Some (AwaitLock o q)) →
  Inv (enter g opts now rt).
Proof.
  intros HI Hg. unfold enter.
  destruct (lock rt) as [p|] eqn:Hl.
  - by apply Inv_wait_frame.
  - by apply Inv_acquire.
Qed.

Lemma Inv_finally rt g r :
  Inv rt → in_flight rt g → Inv (finally g r rt).
Proof.
  intros [H1 H2 H3 H4] Hf.
  assert (Hl : lock rt = Some g) by by apply H2.
  assert (Hc : current rt = Some g) by congruence.
  unfold finally. rewrite decide_True by done.
  split; simpl; try done.
  - intros g'. unfold in_flight in *. simpl.
    rewrite kind_insert. case_decide; [subst; naive_solver|].
    split; [|done]. intros Hf'. apply H2 in Hf'. congruence.
  - intros g'. rewrite elem_of_cons, H3. unfold settled in *. simpl.
    rewrite kind_insert. case_decide; naive_solver.
  - intros g' p'. unfold waiting_on, in_flight, settled in *. simpl.
    rewrite !kind_insert. intros Hw.
    repeat case_decide; simpl in *; simplify_eq; eauto.
Qed.

Lemma in_flight_frame (rt : Runtime App) g f :
  frames rt !! g = Some f → kind f = KFlight → in_flight rt g.
Proof. intros Hg Hk. unfold in_flight. by rewrite Hg; simpl; rewrite Hk. Qed.

Lemma Inv_step (rt : Runtime App) l rt' : Inv rt → generateToken sign l rt = Some rt' → Inv rt'.
Proof.
  intros HI Hs. destruct l as [g opts now | g now | g ns o | g | g]; simpl in Hs.
  - destruct (frames rt !! g) eqn:Hg; simplify_eq. apply Inv_enter; auto.
  - destruct (frames rt !! g) as [[opts p| | |]|] eqn:Hg; simplify_eq.
    destruct (mem p (resolved rt)); simplify_eq. apply Inv_enter; eauto.
  - destruct (frames rt !! g) as [[|opts ts pending sts errors| |]|] eqn:Hg; simplify_eq.
    destruct (mem ns pending); simplify_eq.
    unfold on_save. destruct o as [v | msg].
    + eapply (Inv_same_kind rt g _ _ (emitted rt)); eauto.
    + destruct (is_required (manager rt) ns).
      * eapply (Inv_same_kind rt g _ _ (emitted rt)); eauto.
      * eapply Inv_same_kind; eauto.
  - destruct (frames rt !! g) as [[|opts ts [|] sts errors| |]|] eqn:Hg; simplify_eq.
    assert (Hf : in_flight rt g) by (eapply in_flight_frame; eauto).
    unfold after_gather. case_decide.
    + destruct errors.
      * eapply (Inv_same_kind rt g _ _ (emitted rt)); eauto.
      * by apply Inv_finally.
    + by apply Inv_finally.
  - destruct (frames rt !! g) as [[| |payload exp|]|] eqn:Hg; simplify_eq.
    apply Inv_finally; [done|]. eapply in_flight_frame; eauto.
Qed.

Lemma reachable_Inv rt : reachable sign m rt → Inv rt.
Proof. induction 1; eauto using Inv_idle, Inv_step. Qed.

Lemma reachable_run ls rt rt' :
  reachable sign m rt → run sign ls rt = Some rt' → reachable sign m rt'.
Proof.
  revert rt. induction ls as [|l ls IH]; simpl; intros rt Hr Hrun.
  - by simplify_eq.
  - destruct (generateToken sign l rt) eqn:Hs; [|done].
    eapply IH; [|done]. by eapply reachable_step.
Qed.

(** [register] is the only writer of the provider and option maps and of
    the owner: token generation leaves them alone. *)
Lemma reachable_static (rt : Runtime App) :
  reachable sign m rt →
  _providers (manager rt) = _providers m ∧
  _options (manager rt) = _options m ∧
  _starling (manager rt) = _starling m.
Proof.
  induction 1 as [|rt l rt' _ IH Hs]; [done|].
  destruct l as [g opts now | g now | g ns o | g | g]; simpl in Hs;
    repeat match type of Hs with
    | context [match ?x with _ => _ end] => destruct x; simplify_eq
    end;
    unfold enter, on_save, after_gather, finally, put_frame in *;
    repeat match goal with
    | |- context [match ?x with _ => _ end] => destruct x
    end; simpl; done.
Qed.




(** However a call comes by the lock - on arrival or when resumed - it
    starts its gather from scratch: every provider pending, nothing
    collected. *)
Lemma takes_lock_gathers (rt : Runtime App) l rt' g :
  reachable sign m rt → generateToken sign l rt = Some rt' →
  in_flight rt' g → ¬ in_flight rt g →
  ∃ opts now,
    (l = Invoke g opts now ∨ l = Resume g now) ∧
    frames rt' !! g = Some (Gathering opts now (map fst (_providers m)) [] []).
Proof.
  intros Hr Hs Hf Hn.
  destruct (reachable_static _ Hr) as (Hp & _ & _).
  assert (Hkeep : ∀ g0 f (rt0 : Runtime App),
            g0 ≠ g → frames rt0 = <[g0 := f]> (frames rt) → ¬ in_flight rt0 g).
  { intros g0 f rt0 Hne Heq. unfold in_flight in *.
    by rewrite Heq, lookup_insert_ne. }
  assert (Hsame : ∀ g0 f f' (rt0 : Runtime App),
            frames rt !! g0 = Some f → kind f = kind f' →
            frames rt0 = <[g0 := f']> (frames rt) → ¬ in_flight rt0 g).
  { intros g0 f f' rt0 Hg0 Hk Heq. unfold in_flight in *. rewrite Heq.
    rewrite kind_insert. case_decide; [subst|done].
    rewrite Hg0 in Hn. simpl in Hn. congruence. }
  assert (Henter : ∀ g0 opts now, in_flight (enter g0 opts now rt) g →
            g0 = g ∧ frames (enter g0 opts now rt) !! g =
                     Some (Gathering opts now (map fst (_providers m)) [] [])).
  { intros g0 opts now. unfold enter, in_flight in *.
    destruct (lock rt); simpl; rewrite kind_insert; case_decide;
      try done; subst; intros _; by rewrite lookup_insert_eq, ?Hp. }
  destruct l as [g0 opts now | g0 now | g0 ns o | g0 | g0]; simpl in Hs.
  - destruct (frames rt !! g0) eqn:Hg0; [done|]. injection Hs as <-.
    destruct (Henter _ _ _ Hf) as [-> Hfr]. eauto.
  - destruct (frames rt !! g0) as [[opts p| | |]|] eqn:Hg0; try done.
    destruct (mem p (resolved rt)); [|done]. injection Hs as <-.
    destruct (Henter _ _ _ Hf) as [-> Hfr]. eauto.
  - destruct (frames rt !! g0) as [[|opts ts pending sts errors| |]|] eqn:Hg0;
      try done.
    destruct (mem ns pending); [|done]. injection Hs as <-. exfalso.
    unfold on_save in Hf.
    destruct o; [|destruct (is_required (manager rt) ns)];
      (eapply (Hsame g0 _ _ _ Hg0); [ | | exact Hf]; [ | reflexivity]; done).
  - destruct (frames rt !! g0) as [[|opts ts [|] sts errors| |]|] eqn:Hg0;
      try done.
    injection Hs as <-. exfalso. unfold after_gather, finally in Hf.
    case_decide; [destruct errors|];
      first [ by (eapply (Hsame g0 _ _ _ Hg0); [ | | exact Hf]; [ | reflexivity])
            | unfold in_flight in *; simpl in Hf; rewrite kind_insert in Hf;
              case_decide; [done | contradiction] ].
  - destruct (frames rt !! g0) as [[| |payload exp|]|] eqn:Hg0; try done.
    injection Hs as <-. exfalso. unfold finally, in_flight in *. simpl in Hf.
    rewrite kind_insert in Hf. case_decide; [done | contradiction].
Qed.



(** *** Gathering the snapshots *)










Lemma saves_of_cons g l ls : saves_of g (l :: ls) = saves_of g [l] ++ saves_of g ls.
Proof. destruct l; simpl; try done. by case_decide. Qed.

Lemma saves_of_app g ls1 ls2 :
  saves_of g (ls1 ++ ls2) = saves_of g ls1 ++ saves_of g ls2.
Proof.
  induction ls1 as [|l ls1 IH]; [done|].
  rewrite <- app_comm_cons, (saves_of_cons g l (ls1 ++ ls2)), IH,
    (saves_of_cons g l ls1). by rewrite app_assoc.
Qed.

Lemma saves_of_settles g sched : saves_of g (settles g sched) = sched.
Proof.
  induction sched as [|[ns o] r IH]; simpl; [done|].
  rewrite decide_True by done. by rewrite IH.
Qed.









End Generation.

(** *** A worked run *)

(** A signer that always succeeds, a peer with the two core providers and a
    non-required [prefs] provider, and a call ["g1"] taken step by step. *)
Definition sign_ok : TokenPayload -> string -> Res string :=
  λ _ _, Ok "jwt".

Definition prefs_provider : StateProvider unit :=
  {| provider_restore := λ _ a, (a, None); provider_validate := None |}.

Definition with_prefs : StatesManager unit :=
  match register "prefs" prefs_provider
          {| required := false; defaultState := VNull |} (constructor "peer-1") with
  | Ok (m, _) => m
  | Throw _ => constructor "peer-1"
  end.

Definition no_options : StateTokenOptions :=
  {| expiresIn := None; customClaims := [] |}.

Definition after (ls : list Label) : Runtime unit :=
  default (idle with_prefs) (run sign_ok ls (idle with_prefs)).

Lemma reachable_after ls :
  is_Some (run sign_ok ls (idle with_prefs)) →
  reachable sign_ok with_prefs (after ls).
Proof.
  intros [rt H]. unfold after. rewrite H. simpl.
  eapply reachable_run; [apply reachable_idle | exact H].
Qed.





End StatesFacts.

(** ** Restoring from a token *)

Module RestoreFacts.
Import States.

Section Restore.
Context {App : Type}.
Variable jwtVerify : string -> Res TokenPayload.
Variable m : StatesManager App.

Definition passes (provider : StateProvider App) (state : Value) : bool :=
  match provider_validate provider with
  | Some f => f state
  | None => true
  end.















(** C8. A token that verifies but names another peer makes [restore]
    throw "Token starling ID mismatch"; no provider's [restore] has been
    called and the application state is the one [restore] was given. *)
Theorem restore_id_mismatch token payload a :
  jwtVerify token = Ok payload →
  starlingId payload ≠ _starling m →
  result (restore jwtVerify m token a) = Throw "Token starling ID mismatch" ∧
  restore_calls (restore jwtVerify m token a) = [] ∧
  app_after (restore jwtVerify m token a) = a ∧
  events (restore jwtVerify m token a) =
    [{| ev_name := "state:restore:failed";
        ev_message := "State restoration failed: Token starling ID mismatch" |}].
Proof.
  intros Hv Hid. unfold restore. rewrite Hv.
  rewrite decide_False by done. done.
Qed.


End Restore.

(** *** Worked cases *)

(** A peer ["me"] whose application state is a counter, with the core
    providers and a non-required [visits] provider that adds what it is
    given. *)
Definition visits_provider : StateProvider Z :=
  {| provider_restore := λ v a, match v with
                                | VNum n => ((a + n)%Z, None)
                                | _ => (a, Some "not a number")
                                end;
     provider_validate := None |}.

Definition me : StatesManager Z :=
  match register "visits" visits_provider
          {| required := false; defaultState := VNull |} (constructor "me") with
  | Ok (m, _) => m
  | Throw _ => constructor "me"
  end.

Definition token_of (id : string) (sts : list (string * Value))
  : string -> Res TokenPayload :=
  λ _, Ok {| starlingId := id; states := sts; timestamp := 0; claims := [] |}.

Lemma restore_id_mismatch_witness :
  let jwtVerify := token_of "someone-else" [("visits", VNum 3)] in
  jwtVerify "token" =
    Ok {| starlingId := "someone-else"; states := [("visits", VNum 3)];
          timestamp := 0; claims := [] |} ∧
  "someone-else" ≠ _starling me ∧
  result (restore jwtVerify me "token" 10%Z) = Throw "Token starling ID mismatch" ∧
  restore_calls (restore jwtVerify me "token" 10%Z) = [] ∧
  app_after (restore jwtVerify me "token" 10%Z) = 10%Z.
Proof.
  assert (H1 : token_of "someone-else" [("visits", VNum 3)] "token" =
               Ok {| starlingId := "someone-else"; states := [("visits", VNum 3)];
                     timestamp := 0; claims := [] |}) by reflexivity.
  assert (H2 : "someone-else" ≠ _starling me) by (vm_compute; discriminate).
  destruct (restore_id_mismatch (token_of "someone-else" [("visits", VNum 3)])
              me "token" _ 10%Z H1 H2) as (H3 & H4 & H5 & _).
  repeat split; assumption.
Defined.


End RestoreFacts.

(** ** The peer's lifecycle: eviction and exclusive transport *)

Module PeerFacts.
Import Peer.

Section Lifecycle.
Variable helios_disconnectionTTL : option Z.

Abbreviation unlink := (Peer.unlink helios_disconnectionTTL).
Abbreviation link := (Peer.link helios_disconnectionTTL).
Abbreviation step := (Peer.step helios_disconnectionTTL).
Abbreviation reachable := (Peer.reachable helios_disconnectionTTL).

Lemma unlink_peer now w :
  peer (unlink now w) =
  {| id := id (peer w); disconnectionTTL := disconnectionTTL (peer w);
     _ws := None; _lastConnected := _lastConnected (peer w);
     _disconnectedAt := Some now;
     _disconnectionTimeout := Some (next_timer w);
     _reconnecting := _reconnecting (peer w) |}.
Proof. reflexivity. Qed.

Lemma unlink_timers now w :
  timers (unlink now w) =
  timers w ++ [{| timer := next_timer w;
                  due := (now + eviction_delay helios_disconnectionTTL)%Z |}].
Proof. reflexivity. Qed.

Lemma close_peer reason w : peer (close reason w) = peer w.
Proof. unfold close. by destruct (_ws (peer w)). Qed.

Lemma close_closes reason w : closes (close reason w) = closes w ++ [reason].
Proof. unfold close. by destruct (_ws (peer w)). Qed.

Lemma link_reconnecting ws now flush w :
  _reconnecting (peer w) = false →
  _reconnecting (peer (link ws now flush w).1) = false.
Proof.
  intros H. unfold Peer.link. rewrite H.
  destruct flush; destruct (_disconnectionTimeout (peer w)); done.
Qed.

Lemma fire_peer t now w w' : fire t now w = Some w' → peer w' = peer w.
Proof.
  unfold fire, on_timeout. intros H.
  case_decide; [|done]. destruct (due t <=? now)%Z; [|done].
  simpl in H. destruct (isConnected (peer w)); simplify_eq; [done|].
  by rewrite close_peer.
Qed.

(** Between two operations no [link] is in progress. *)
Lemma reachable_not_reconnecting w0 w :
  _reconnecting (peer w0) = false → reachable w0 w →
  _reconnecting (peer w) = false.
Proof.
  intros H0. induction 1 as [|w o w' _ IH Hs]; [done|].
  destruct o as [ws now flush | now | reason | t now]; simpl in Hs; simplify_eq.
  - by apply link_reconnecting.
  - by rewrite unlink_peer.
  - by rewrite close_peer.
  - by rewrite (fire_peer _ _ _ _ Hs).
Qed.






(** C6. From construction on, the peer has at most one handle; after
    [unlink] it has none; a [link] is never turned away as a duplicate, and
    when it succeeds the handle is the one linked, when it fails there is
    none. *)
Theorem exclusive_transport uuid ws0 opt_id opt_ttl (w : World) :
  reachable (constructor uuid ws0 opt_id opt_ttl) w →
  (∀ h1 h2, _ws (peer w) = Some h1 → _ws (peer w) = Some h2 → h1 = h2) ∧
  (∀ now, _ws (peer (unlink now w)) = None) ∧
  (∀ h now flush,
     match link h now flush w with
     | (w', Linked) => _ws (peer w') = Some h
     | (w', Failed _) => _ws (peer w') = None
     | (_, Ignored) => False
     end).
Proof.
  intros Hr.
  assert (Hrec : _reconnecting (peer w) = false)
    by (eapply reachable_not_reconnecting; [|done]; done).
  repeat split.
  - congruence.
  - intros h now flush. unfold Peer.link. rewrite Hrec.
    destruct flush; destruct (_disconnectionTimeout (peer w)); done.
Qed.

End Lifecycle.

Lemma exclusive_transport_witness :
  let w0 := constructor "peer-1" 1 None None in
  let w := Peer.unlink None 5 w0 in
  Peer.reachable None w0 w ∧
  _ws (peer w) = None ∧
  _ws (peer (Peer.link None 2 9 (Ok tt) w).1) = Some 2.
Proof.
  assert (H : Peer.reachable None (constructor "peer-1" 1 None None)
                (Peer.unlink None 5 (constructor "peer-1" 1 None None))).
  { eapply reachable_step with (o := Unlink 5); [apply reachable_new | reflexivity]. }
  destruct (exclusive_transport None "peer-1" 1 None None _ H) as (_ & _ & Hlink).
  split; [exact H|]. split; [reflexivity|].
  exact (Hlink 2 9%Z (Ok tt)).
Defined.


End PeerFacts.

(** ** Connection handling when recovery fails *)

Module RegistryFacts.
Import States Registry.

Section Manager.
Context {App : Type}.
Variable jwtVerify : string -> Res TokenPayload.
Variable helios_disconnectionTTL : option Z.

Abbreviation attempt := (_attemptRecovery jwtVerify helios_disconnectionTTL).
Abbreviation handle := (handleConnection jwtVerify helios_disconnectionTTL).


Definition restoration_failed (msg : string) : Event :=
  {| ev_name := "starling:state:restore:failed";
     ev_message := "State restoration failed: " +:+ msg |}.

(** What [_createNewStarling] leaves behind. *)
Lemma createNewStarling_spec ws recover uuid (init : App)
  (mgr : StarlingsManager App) :
  let mgr' := (_createNewStarling jwtVerify ws recover uuid init mgr).1 in
  let r := (_createNewStarling jwtVerify ws recover uuid init mgr).2 in
  heap mgr !! r = None ∧
  _connections mgr' !! ws = Some r ∧
  _starlingsById mgr' !! uuid = Some r ∧
  (∃ o, heap mgr' !! r = Some o ∧
        Peer.id (Peer.peer (world o)) = uuid ∧
        Peer._ws (Peer.peer (world o)) = Some ws ∧
        _states o = constructor uuid ∧
        ∀ token, given recover = Some token →
          data o = app_after (restore jwtVerify (constructor uuid) token init)) ∧
  (∀ e, e ∈ log mgr → e ∈ log mgr') ∧
  (∀ token, given recover = Some token →
     let rs := restore jwtVerify (constructor (App := App) uuid) token init in
     (∀ e, e ∈ events rs → e ∈ log mgr') ∧
     (∀ msg, result rs = Throw msg → restoration_failed msg ∈ log mgr')).
Proof.
  unfold _createNewStarling, constructor.
  destruct (construct (App := App) uuid) as [sm registered] eqn:Hc.
  destruct (given recover) as [token|] eqn:Hg; simpl.
  - repeat split.
    + apply not_elem_of_dom, is_fresh.
    + by rewrite lookup_insert_eq.
    + by rewrite lookup_insert_eq.
    + eexists. rewrite lookup_insert_eq. repeat split.
      intros ? [= <-]. done.
    + intros e He. rewrite !elem_of_app. tauto.
    + intros e He. simplify_eq. rewrite !elem_of_app. tauto.
    + intros msg Hm. simplify_eq. rewrite Hm.
      rewrite !elem_of_app, !list_elem_of_singleton. tauto.
  - repeat split; try done.
    + apply not_elem_of_dom, is_fresh.
    + by rewrite lookup_insert_eq.
    + by rewrite lookup_insert_eq.
    + eexists. rewrite lookup_insert_eq. repeat split. done.
    + intros e He. rewrite !elem_of_app. tauto.
Qed.




End Manager.



(** Beside the peer's own handle, the registry's [_connections] map: when a
    peer is recovered after its transport closed, the peer's handle is
    already null, so [_attemptRecovery] finds no old mapping to delete and
    the closed handle stays mapped to the peer next to the new one. *)
Lemma recovery_keeps_closed_handle :
  let jwtVerify := λ _ : string,
    Ok {| starlingId := "p1"; states := []; timestamp := 0; claims := [] |} in
  let connected :=
    (handleConnection (App := unit) jwtVerify None 1 None "p1" tt 0 (Ok tt)
       Registry.empty).1 in
  let dropped := handlers_close None 1 10 connected in
  let recovered :=
    (handleConnection jwtVerify None 2 (Some "token") "p2" tt 20 (Ok tt)
       dropped).1 in
  ∃ r o, _connections recovered !! 1 = Some r ∧
         _connections recovered !! 2 = Some r ∧
         heap recovered !! r = Some o ∧
         Peer._ws (Peer.peer (world o)) = Some 2.
Proof. eexists _, _. repeat split; vm_compute; reflexivity. Qed.

End RegistryFacts.

(** ** Proxy routing: outcomes and correlation *)

Module ProxyFacts.
Import Proxy.

Section WithServer.
Variable starlings_has : Key -> Res bool.
Variable starlings_get : Key -> option Ref.
Variable send : Ref -> Outgoing -> Res unit.

Abbreviation handleProxy := (Proxy.handleProxy starlings_has starlings_get send).
Abbreviation forward := (Proxy.forward starlings_has starlings_get send).

(** The message's kind is not switched off by the rule. *)
Definition allowed (rule : Rule) (message : Message) : bool :=
  negb (String.eqb (type message) "request" && negb (allowRequests (options rule)))
  && negb (String.eqb (type message) "notification"
           && negb (allowNotifications (options rule))).

(** Nothing stands in the way of forwarding: a rule is set and allows the
    kind, its handler names a target the registry knows, and the send to
    that target goes through. *)
Definition forwarding_succeeds (message : Message) (source : Source) (now : Z)
  (pm : ProxyManager) : Prop :=
  ∃ rule target r,
    _rules pm = Some rule ∧
    allowed rule message = true ∧
    handler rule message source = Ok target ∧
    falsy target = false ∧
    starlings_has target = Ok true ∧
    starlings_get target = Some r ∧
    send r (_enrichMessage message source now) = Ok tt.

Definition proxy_error (msg : string) : Event :=
  {| ev_name := "proxy:error"; ev_message := "Proxy error: " +:+ msg |}.

Lemma forward_outcome message source start now finish pm :
  (forwarding_succeeds message source now pm ∧
   ∃ pm', forward message source start now finish pm = (pm', Ok true) ∧
          events pm' = events pm ∧
          activeProxies (_metrics pm') = activeProxies (_metrics pm)) ∨
  (¬ forwarding_succeeds message source now pm ∧
   ∃ pm' msg, forward message source start now finish pm = (pm', Throw msg) ∧
              events pm' = events pm ∧
              activeProxies (_metrics pm') = activeProxies (_metrics pm)).
Proof.
  unfold Proxy.forward, _validateProxy, _resolveTarget, denied, _sendToTarget,
    forwarding_succeeds, allowed.
  assert (Htrack : ∀ pm1,
            events (if String.eqb (type message) "request"
                    then _trackProxyRequest message source now pm1 else pm1) =
            events pm1 ∧
            activeProxies (_metrics (if String.eqb (type message) "request"
                    then _trackProxyRequest message source now pm1 else pm1)) =
            activeProxies (_metrics pm1)).
  { intros pm1. by destruct (String.eqb (type message) "request"). }
  destruct (Htrack pm) as [Hte Hta].
  destruct (_rules pm) as [rule|] eqn:Hrule.
  2: { right. split; [intros (? & ? & ? & ? & _); done | eauto]. }
  destruct (String.eqb (type message) "request" && negb (allowRequests (options rule)))
    eqn:Hreq.
  { right. split; [|eauto].
    intros (? & ? & ? & ? & ? & _). simplify_eq. by rewrite Hreq in *. }
  destruct (String.eqb (type message) "notification"
            && negb (allowNotifications (options rule))) eqn:Hnot.
  { right. split; [|eauto].
    intros (? & ? & ? & ? & ? & _). simplify_eq. by rewrite Hreq, Hnot in *. }
  destruct (handler rule message source) as [target|msg] eqn:Hh.
  2: { right. split; [|eauto].
       intros (? & ? & ? & ? & ? & ? & _). simplify_eq. congruence. }
  destruct (falsy target) eqn:Hf.
  { right. split; [|eauto].
    intros (? & ? & ? & ? & ? & ? & ? & _). simplify_eq. congruence. }
  destruct (starlings_has target) as [[|]|msg] eqn:Hhas.
  2: { right. split; [|eauto].
       intros (? & ? & ? & ? & ? & ? & ? & ? & _). simplify_eq. congruence. }
  2: { right. split; [|eauto].
       intros (? & ? & ? & ? & ? & ? & ? & ? & _). simplify_eq. congruence. }
  destruct (starlings_get target) as [r|] eqn:Hget.
  2: { right. split; [|eauto].
       intros (? & ? & ? & ? & ? & ? & ? & ? & ? & ?). simplify_eq. congruence. }
  destruct (send r (_enrichMessage message source now)) as [[]|msg] eqn:Hs.
  2: { right. split; [|eauto].
       intros (? & ? & ? & ? & ? & ? & ? & ? & ? & ?). simplify_eq. congruence. }
  left. split.
  { exists rule, target, r. by rewrite Hreq, Hnot. }
  eexists. split; [reflexivity|]. simpl. done.
Qed.


(** *** Correlation of responses *)

(** A response to a request that is not pending is turned away; so is a
    second response to the same request, the first one having removed the
    pending entry whatever its outcome. *)
Lemma handleProxyResponse_unknown response pm :
  _activeProxies pm !! requestId response = None →
  Proxy.handleProxyResponse starlings_get send response pm =
    (pm, Throw "Unknown proxy response").
Proof. intros H. unfold Proxy.handleProxyResponse. by rewrite H. Qed.

Lemma handleProxyResponse_removes response pm :
  _activeProxies (Proxy.handleProxyResponse starlings_get send response pm).1
    !! requestId response = None.
Proof.
  unfold Proxy.handleProxyResponse.
  destruct (_activeProxies pm !! requestId response) as [info|] eqn:H; [|done].
  destruct (starlings_get _) as [r|]; [destruct (send r _)|]; simpl;
    apply lookup_delete_eq.
Qed.

Lemma handleProxyResponse_twice response pm :
  (Proxy.handleProxyResponse starlings_get send response
     (Proxy.handleProxyResponse starlings_get send response pm).1).2 =
  Throw "Unknown proxy response".
Proof.
  by rewrite handleProxyResponse_unknown
    by apply handleProxyResponse_removes.
Qed.

(** The timeout of a tracked request: when its callback runs and the
    request is still pending, the entry goes and one [proxy:timeout] event
    is emitted; the callback is then spent. *)
Lemma tracked_request_times_out message source now later pm rule :
  _rules pm = Some rule → timers pm = [] →
  (now + timeout (options rule) <= later)%Z →
  let t := (requestId message, (now + timeout (options rule))%Z) in
  let pm1 := _trackProxyRequest message source now pm in
  ∃ pm2, fire t later pm1 = Some pm2 ∧
         _activeProxies pm2 !! requestId message = None ∧
         events pm2 = events pm ++
           [{| ev_name := "proxy:timeout";
               ev_message := "Proxy request " +:+ requestId message +:+ " timed out" |}] ∧
         fire t later pm2 = None.
Proof.
  intros Hr Ht Hle. unfold _trackProxyRequest, fire. simpl.
  rewrite Hr, Ht. simpl. rewrite decide_True by done. simpl.
  apply Z.leb_le in Hle. rewrite Hle.
  rewrite lookup_insert_eq. eexists. split; [reflexivity|]. simpl.
  by rewrite lookup_delete_eq.
Qed.

End WithServer.

Section Repository.
Context {App : Type}.
(** [this._helios.starlings] is the server's [StarlingsManager]. *)
Variable starlings : Registry.StarlingsManager App.
Variable send : Ref -> Outgoing -> Res unit.

(** [StarlingsManager] defines no [has]: calling it is a [TypeError]. *)
Definition registry_has : Key -> Res bool :=
  λ _, Throw "this._helios.starlings.has is not a function".

Definition registry_get : Key -> option Ref :=
  λ k, Registry.get k starlings.


(** With the server's own registry [handleProxy] cannot get past target
    resolution. *)
Lemma handleProxy_own_registry message source start now finish pm :
  (Proxy.handleProxy registry_has registry_get send
     message source start now finish pm).2 = Ok false.
Proof.
  unfold Proxy.handleProxy.
  destruct (forward_outcome registry_has registry_get send message source
              start now finish
              (with_metrics (add_active 1) (with_metrics count_total pm)))
    as [[Hok _] | [_ (pm' & msg & Hf & _)]].
  - by destruct Hok as (? & ? & ? & _ & _ & _ & _ & Hhas & _).
  - by rewrite Hf.
Qed.

End Repository.

(** *** The failing case *)


Definition any_rule : Rule :=
  {| handler := λ _ _, Ok (Registry.KHandle 1);
     options := {| allowRequests := true; allowNotifications := true;
                   timeout := 30000 |} |}.

Definition tracking_X : ProxyManager :=
  _trackProxyRequest {| type := "request"; requestId := "X"; payload := VNull |}
    {| source_id := "p1" |} 0
    (setRule (Some any_rule) initial).1.

Definition response_X : Message :=
  {| type := "response"; requestId := "X"; payload := VStr "done" |}.


End ProxyFacts.

(** ** Registration: namespaces are written once *)

Module RegistrationFacts.
Import States StatesQueries.

Section Registration.
Context {App : Type}.

Lemma assoc_None {A} k (l : list (string * A)) :
  assoc k l = None ↔ k ∉ map fst l.
Proof.
  induction l as [|[k' a] l IH]; simpl.
  - split; [intros _; apply not_elem_of_nil | done].
  - rewrite not_elem_of_cons. destruct (String.eqb_spec k k') as [->|Hne].
    + split; [done | intros [? _]; done].
    + rewrite IH. tauto.
Qed.

Lemma assoc_app {A} k (l1 l2 : list (string * A)) :
  assoc k (l1 ++ l2) =
  match assoc k l1 with Some a => Some a | None => assoc k l2 end.
Proof.
  induction l1 as [|[k' a] l1 IH]; simpl; [done|].
  by destruct (String.eqb k k').
Qed.

Lemma assoc_elem_of {A} k (l : list (string * A)) a :
  assoc k l = Some a → (k, a) ∈ l.
Proof.
  induction l as [|[k' a'] l IH]; simpl; [done|].
  destruct (String.eqb_spec k k') as [->|Hne].
  - intros [= ->]. left.
  - intros H. right. auto.
Qed.


Lemma hasNamespace_elem_of ns (m : StatesManager App) :
  hasNamespace ns m = true ↔ ns ∈ namespaces m.
Proof.
  unfold hasNamespace, namespaces.
  destruct (assoc ns (_providers m)) as [p|] eqn:H.
  - split; [intros _ | done].
    apply (list_elem_of_fmap_2 fst _ _ (assoc_elem_of _ _ _ H)).
  - apply assoc_None in H. split; [done | intros H'; by destruct H].
Qed.

(** What holds of every manager a program can hold. *)
Record WellFormed (id : string) (m : StatesManager App) : Prop := {
  wf_starling : _starling m = id;
  wf_unique : NoDup (namespaces m);
  wf_options : map fst (_options m) = namespaces m;
  wf_connection : assoc "connection" (_options m) = Some core_options;
  wf_info : assoc "info" (_options m) = Some core_options;
  wf_unlocked : _stateGenerationLock m = None ∧ _currentGenerationId m = None
}.

Lemma WellFormed_constructor id : WellFormed id (constructor id).
Proof.
  split; try done.
  unfold namespaces. simpl. apply NoDup_cons. split.
  - rewrite list_elem_of_singleton. discriminate.
  - apply NoDup_singleton.
Qed.

Lemma WellFormed_register id m ns provider options m' e :
  WellFormed id m → register ns provider options m = Ok (m', e) →
  WellFormed id m'.
Proof.
  intros [H1 H2 H3 H4 H5 H6]. unfold register.
  destruct (assoc ns (_providers m)) eqn:Hns; [done|]. intros [= <- _].
  apply assoc_None in Hns.
  split; unfold namespaces in *; simpl.
  - done.
  - rewrite map_app. simpl. apply NoDup_app. split; [done|]. split.
    + intros x Hx [->|[]%elem_of_nil]%elem_of_cons. done.
    + apply NoDup_singleton.
  - by rewrite !map_app, H3.
  - by rewrite assoc_app, H4.
  - by rewrite assoc_app, H5.
  - done.
Qed.

Lemma built_WellFormed id m : built id m → WellFormed id m.
Proof.
  induction 1; [apply WellFormed_constructor | by eapply WellFormed_register].
Qed.

(** X1. [register] throws exactly when the namespace is already
    registered, and then leaves the manager as it is (there is no manager
    in the result).  When it returns, the namespace has been appended to
    [namespaces], its provider and its options are the ones given, and every
    other namespace keeps its provider and its options. *)
Theorem register_write_once id (m : StatesManager App) ns provider options :
  built id m →
  (hasNamespace ns m = true ↔
   register ns provider options m =
     Throw ("State namespace " +:+ ns +:+ " is already registered")) ∧
  (hasNamespace ns m = false ↔
   ∃ m' e, register ns provider options m = Ok (m', e)) ∧
  (∀ m' e, register ns provider options m = Ok (m', e) →
     namespaces m' = namespaces m ++ [ns] ∧
     assoc ns (_providers m') = Some provider ∧
     assoc ns (_options m') = Some options ∧
     ev_name e = "state:registered" ∧
     ∀ k, k ≠ ns →
       assoc k (_providers m') = assoc k (_providers m) ∧
       assoc k (_options m') = assoc k (_options m)).
Proof.
  intros Hb. apply built_WellFormed in Hb as [_ _ Hopt _ _ _].
  unfold hasNamespace, register.
  destruct (assoc ns (_providers m)) as [p|] eqn:Hns.
  - split; [done|]. split; [|done]. split; [done | by intros (? & ? & ?)].
  - split; [done|]. split; [split; eauto|].
    intros m' e [= <- <-]. unfold namespaces. simpl.
    assert (Hno : assoc ns (_options m) = None).
    { apply assoc_None. rewrite Hopt. by apply assoc_None. }
    rewrite map_app, !assoc_app, Hns, Hno. simpl. rewrite String.eqb_refl.
    repeat split; try done.
    + rewrite assoc_app. simpl.
      destruct (String.eqb_spec k ns); [done|].
      by destruct (assoc k (_providers m)).
    + rewrite assoc_app. simpl.
      destruct (String.eqb_spec k ns); [done|].
      by destruct (assoc k (_options m)).
Qed.

(** X2. In every manager built by the constructor and any number of
    registrations: the namespaces are pairwise distinct, the options are
    recorded under the same namespaces in the same order, the two core
    namespaces "connection" and "info" are registered first, required and
    without default state, and no later registration can replace them. *)
Theorem built_namespaces id (m : StatesManager App) :
  built id m →
  _starling m = id ∧
  NoDup (namespaces m) ∧
  map fst (_options m) = namespaces m ∧
  (∃ rest, namespaces m = "connection" :: "info" :: rest) ∧
  is_required m "connection" = true ∧
  is_required m "info" = true ∧
  (∀ ns, ns = "connection" ∨ ns = "info" →
     assoc ns (_options m) = Some core_options ∧
     ∀ provider options, ∃ msg, register ns provider options m = Throw msg).
Proof.
  intros Hb. pose proof (built_WellFormed _ _ Hb) as [H1 H2 H3 H4 H5 H6].
  split; [done|]. split; [done|]. split; [done|].
  assert (Hfirst : ∃ rest, namespaces m = "connection" :: "info" :: rest).
  { clear -Hb. induction Hb as [|m ns p o m' e _ [rest IH] Hr].
    - by exists [].
    - unfold register in Hr. destruct (assoc ns (_providers m)); [done|].
      injection Hr as <- _. unfold namespaces in *. simpl.
      rewrite map_app, IH. by eexists. }
  split; [done|]. unfold is_required. rewrite H4, H5.
  split; [done|]. split; [done|].
  intros ns Hns. split; [by destruct Hns as [-> | ->]|].
  intros provider options. unfold register.
  assert (Hin : ns ∈ namespaces m).
  { destruct Hfirst as [rest ->]. destruct Hns as [-> | ->]; set_solver. }
  apply hasNamespace_elem_of in Hin. unfold hasNamespace in Hin.
  destruct (assoc ns (_providers m)); [by eexists | done].
Qed.

End Registration.

Definition counter_provider : StateProvider Z :=
  {| provider_restore := λ v a, match v with
                                | VNum z => (z, None)
                                | _ => (a, Some "not a number")
                                end;
     provider_validate := None |}.

Definition counter_options : StateRegistrationOptions :=
  {| required := false; defaultState := VNull |}.

Definition with_counter : StatesManager Z :=
  {| _starling := "p1";
     _providers := _providers (constructor "p1") ++ [("counter", counter_provider)];
     _options := _options (constructor (App := Z) "p1") ++
                 [("counter", counter_options)];
     _stateGenerationLock := None;
     _currentGenerationId := None |}.

Lemma built_with_counter : built "p1" with_counter.
Proof.
  eapply (built_register _ _ "counter" counter_provider counter_options);
    [apply built_new | reflexivity].
Defined.

Lemma register_write_once_witness :
  built "p1" (constructor (App := Z) "p1") ∧
  hasNamespace "counter" (constructor (App := Z) "p1") = false ∧
  ∃ m' e,
    register "counter" counter_provider counter_options (constructor "p1")
      = Ok (m', e) ∧
    namespaces m' = ["connection"; "info"; "counter"].
Proof.
  assert (Hb : built "p1" (constructor (App := Z) "p1")) by apply built_new.
  destruct (register_write_once "p1" _ "counter" counter_provider
              counter_options Hb) as (_ & [Hfresh _] & Hok).
  split; [exact Hb|]. split; [reflexivity|].
  destruct (Hfresh eq_refl) as (m' & e & Hr).
  exists m', e. split; [exact Hr|].
  destruct (Hok m' e Hr) as (Hn & _). exact Hn.
Defined.

Lemma built_namespaces_witness :
  built "p1" with_counter ∧ hasNamespace "counter" with_counter = true ∧
  is_required with_counter "connection" = true.
Proof.
  split; [exact built_with_counter|]. split; [reflexivity|].
  destruct (built_namespaces "p1" _ built_with_counter)
    as (_ & _ & _ & _ & Hreq & _).
  exact Hreq.
Defined.

End RegistrationFacts.

(** ** Restore: what makes it succeed *)

Module RoundTripFacts.
Import States StatesQueries.

Section Restore.
Context {App : Type}.
Variable jwtVerify : string -> Res TokenPayload.
Variable m : StatesManager App.

(** The namespace has a provider that accepts the state: validation passes
    and [restore] resolves, whatever the application state. *)
Definition accepts (ns : string) (v : Value) : Prop :=
  ∃ provider, assoc ns (_providers m) = Some provider ∧
              RestoreFacts.passes provider v = true ∧
              ∀ a, (provider_restore provider v a).2 = None.

Definition start (a : App) : Progress :=
  {| app := a; log := []; restoredStates := []; errors := []; invoked := [] |}.

Lemma restore_entry_accepted st ns v :
  accepts ns v →
  restore_entry m st (ns, v) =
  {| app := replay m [(ns, v)] (app st);
     log := log st ++ [restored_event ns];
     restoredStates := restoredStates st ++ [ns];
     errors := errors st;
     invoked := invoked st ++ [(ns, v)] |}.
Proof.
  intros (provider & Hp & Hv & Hr). unfold restore_entry, RestoreFacts.passes in *.
  simpl. rewrite Hp, Hv. specialize (Hr (app st)).
  destruct (provider_restore provider v (app st)) as [a outcome]. simpl in *.
  by subst.
Qed.

Lemma entries_accepted l : ∀ st,
  (∀ ns v, (ns, v) ∈ l → accepts ns v) →
  fold_left (restore_entry m) l st =
  {| app := replay m l (app st);
     log := log st ++ map restored_event (map fst l);
     restoredStates := restoredStates st ++ map fst l;
     errors := errors st;
     invoked := invoked st ++ l |}.
Proof.
  induction l as [|[ns v] l IH]; intros st Hacc; cbn [fold_left].
  - simpl. rewrite !app_nil_r. by destruct st.
  - rewrite restore_entry_accepted by (apply Hacc; left).
    rewrite IH by (intros; apply Hacc; by right). simpl.
    rewrite <- !app_assoc. simpl.
    destruct (Hacc ns v) as (provider & -> & _); [left|]. done.
Qed.

(** The second loop has nothing to do when every required namespace has
    been restored. *)
Lemma nothing_missing l : ∀ st,
  (∀ ns options, (ns, options) ∈ l → required options = true →
                 ns ∈ restoredStates st) →
  fold_left (restore_missing m) l st = st.
Proof.
  induction l as [|[ns options] l IH]; intros st H; cbn [fold_left]; [done|].
  assert (Hst : restore_missing m st (ns, options) = st).
  { unfold restore_missing. destruct (required options) eqn:Hr; [|done].
    assert (Hm : mem ns (restoredStates st) = true).
    { apply StatesFacts.mem_elem_of. apply (H ns options); [left | done]. }
    by rewrite Hm. }
  rewrite Hst. apply IH. intros k o Hin. apply H. by right.
Qed.

(** X3. Round trip on the restore side.  With a token that verifies for
    this peer, whose every namespace has a provider that accepts its state,
    and that holds every required namespace: [restore] returns; it has
    called the providers' [restore] functions exactly on the token's
    entries, once each, in the token's order, with the state saved there; it
    has emitted one [starling:state:restored] event for each; and the
    application state is the one these calls produce. *)
Theorem restore_round_trip token payload a :
  jwtVerify token = Ok payload →
  starlingId payload = _starling m →
  (∀ ns v, (ns, v) ∈ states payload → accepts ns v) →
  (∀ ns options, (ns, options) ∈ _options m → required options = true →
                 ns ∈ map fst (states payload)) →
  let rs := restore jwtVerify m token a in
  result rs = Ok tt ∧
  restore_calls rs = states payload ∧
  events rs = map restored_event (map fst (states payload)) ∧
  app_after rs = replay m (states payload) a.
Proof.
  intros Hv Hid Hacc Hreq. unfold restore. rewrite Hv, decide_True by done.
  unfold process. fold (start a). rewrite (entries_accepted _ _ Hacc).
  rewrite nothing_missing; [done|]. simpl. eauto.
Qed.





End Restore.

(** *** Worked cases *)

Definition counter_token (sts : list (string * Value)) : string -> Res TokenPayload :=
  λ _, Ok {| starlingId := "p1"; states := sts; timestamp := 0; claims := [] |}.

Definition full_states : list (string * Value) :=
  [("connection", VNull); ("info", VNull); ("counter", VNum 7)].

Definition with_counter := RegistrationFacts.with_counter.

Lemma accepts_full ns v :
  (ns, v) ∈ full_states → accepts with_counter ns v.
Proof.
  intros Hin. unfold full_states in Hin.
  repeat (apply elem_of_cons in Hin as [[= -> ->] | Hin];
          [eexists; split; [reflexivity|]; split; [reflexivity|]; done|]).
  by apply elem_of_nil in Hin.
Defined.

Lemma required_of_counter ns options :
  (ns, options) ∈ _options with_counter → required options = true →
  ns = "connection" ∨ ns = "info".
Proof.
  intros Hin Hr. unfold with_counter in Hin. simpl in Hin.
  apply elem_of_cons in Hin as [[= -> ->] | Hin]; [by left|].
  apply elem_of_cons in Hin as [[= -> ->] | Hin]; [by right|].
  apply elem_of_cons in Hin as [[= -> ->] | Hin]; [done|].
  by apply elem_of_nil in Hin.
Defined.

Lemma restore_round_trip_witness :
  let rs := restore (counter_token full_states) with_counter "jwt" 0%Z in
  result rs = Ok tt ∧ restore_calls rs = full_states ∧ app_after rs = 7%Z.
Proof.
  destruct (restore_round_trip (counter_token full_states) with_counter "jwt"
              {| starlingId := "p1"; states := full_states; timestamp := 0;
                 claims := [] |} 0%Z eq_refl eq_refl accepts_full)
    as (H1 & H2 & _ & H4).
  { intros ns options Hin Hr.
    destruct (required_of_counter ns options Hin Hr) as [-> | ->];
      unfold full_states; simpl; set_solver. }
  split; [exact H1|]. split; [exact H2|]. exact H4.
Defined.




End RoundTripFacts.

(** ** Token generation: progress, and the round trip through restore *)

Module GenerationFacts.
Import States StatesQueries.

(** The call a step belongs to. *)
Definition owner (l : Label) : GenId :=
  match l with
  | Invoke g _ _ | Resume g _ | SaveSettled g _ _ | AllSettled g | Signed g => g
  end.

#[local] Instance Res_eq_dec : EqDecision (Res string).
Proof. solve_decision. Defined.

Section Generation.
Context {App : Type}.
Variable sign : TokenPayload -> string -> Res string.
Variable m : StatesManager App.

(** A call that owns the save batch can always take a step of its own. *)
Lemma in_flight_enabled (rt : Runtime App) g :
  in_flight rt g →
  ∃ l rt', owner l = g ∧ generateToken sign l rt = Some rt'.
Proof.
  unfold in_flight. intros Hf.
  destruct (frames rt !! g) as [[opts p|opts ts pending sts errors|payload exp|r]|]
    eqn:Hg; try done.
  - destruct pending as [|ns pending].
    + exists (AllSettled g). eexists. split; [done|]. simpl. by rewrite Hg.
    + exists (SaveSettled g ns (Fulfilled VNull)). eexists. split; [done|].
      simpl. rewrite Hg. simpl. by rewrite String.eqb_refl.
  - exists (Signed g). eexists. split; [done|]. simpl. by rewrite Hg.
Qed.

(** X6. The lock cannot deadlock.  In every reachable state, every call
    that has not settled can move, or waits for a call that can: a call
    that is gathering or signing has a step of its own enabled (a save
    settling, [Promise.all] resuming, the signer settling); a call parked on
    a promise either resumes, the promise being resolved, or the generation
    it waits for is in flight and has a step enabled. *)
Theorem generateToken_progress (rt : Runtime App) g f :
  reachable sign m rt →
  frames rt !! g = Some f → kind f ≠ KDone →
  ∃ l rt', generateToken sign l rt = Some rt' ∧
           (owner l = g ∨
            (waiting_on rt g (owner l) ∧ in_flight rt (owner l))).
Proof.
  intros Hr Hg Hk. destruct (StatesFacts.reachable_Inv _ _ _ Hr) as [_ _ H3 H4].
  destruct (kind f) as [p| |] eqn:Hkind; [| |done].
  - assert (Hw : waiting_on rt g p).
    { unfold waiting_on. rewrite Hg. simpl. by rewrite Hkind. }
    destruct f as [opts q| | |]; try done. simpl in Hkind. simplify_eq.
    destruct (H4 _ _ Hw) as [Hf | Hs].
    + destruct (in_flight_enabled rt p Hf) as (l & rt' & <- & Hl).
      exists l, rt'. split; [done|]. by right.
    + exists (Resume g 0%Z). eexists. split; [|by left].
      simpl. rewrite Hg.
      assert (Hm : mem p (resolved rt) = true)
        by (apply StatesFacts.mem_elem_of, H3; done).
      by rewrite Hm.
  - destruct (in_flight_enabled rt g) as (l & rt' & <- & Hl).
    { unfold in_flight. rewrite Hg. simpl. by rewrite Hkind. }
    exists l, rt'. split; [done|]. by left.
Qed.


Variable jwtVerify : string -> Res TokenPayload.




End Generation.

(** *** Worked runs *)

Definition with_prefs := StatesFacts.with_prefs.
Definition sign_ok := StatesFacts.sign_ok.
Definition no_options := StatesFacts.no_options.



Lemma generateToken_progress_witness :
  let rt := StatesFacts.after
              [Invoke "g1" no_options 0; Invoke "g2" no_options 1] in
  reachable sign_ok with_prefs rt ∧
  frames rt !! "g2" = Some (AwaitLock no_options "g1") ∧
  ∃ l rt', generateToken sign_ok l rt = Some rt' ∧
           (owner l = "g2" ∨
            (waiting_on rt "g2" (owner l) ∧ in_flight rt (owner l))).
Proof.
  assert (H : reachable sign_ok with_prefs
                (StatesFacts.after
                   [Invoke "g1" no_options 0; Invoke "g2" no_options 1])).
  { apply StatesFacts.reachable_after. vm_compute. by eexists. }
  split; [exact H|]. split; [reflexivity|].
  apply (generateToken_progress sign_ok with_prefs _ "g2"
           (AwaitLock no_options "g1") H); [reflexivity | discriminate].
Defined.



End GenerationFacts.

(** ** The peer's eviction timers *)

Module TimerFacts.
Import Peer.

Section Lifecycle.
Variable helios_disconnectionTTL : option Z.

Abbreviation unlink := (Peer.unlink helios_disconnectionTTL).
Abbreviation link := (Peer.link helios_disconnectionTTL).
Abbreviation step := (Peer.step helios_disconnectionTTL).
Abbreviation reachable := (Peer.reachable helios_disconnectionTTL).
Abbreviation delay := (eviction_delay helios_disconnectionTTL).

(** A disconnected peer that no timer has closed yet holds a pending
    eviction timer, due one eviction delay after the disconnection. *)
Definition eviction_pending (w : World) : Prop :=
  _ws (peer w) = None → "Connection timed out" ∉ closes w →
  ∃ t at_, _disconnectionTimeout (peer w) = Some t ∧
           _disconnectedAt (peer w) = Some at_ ∧
           {| timer := t; due := (at_ + delay)%Z |} ∈ timers w.

Lemma unlink_eviction_pending now w : eviction_pending (unlink now w).
Proof.
  intros _ _. exists (next_timer w), now. split; [done|]. split; [done|].
  rewrite PeerFacts.unlink_timers, elem_of_app, list_elem_of_singleton.
  by right.
Qed.

Lemma link_outcome ws now flush w :
  _reconnecting (peer w) = false →
  match flush with
  | Ok _ => (link ws now flush w).2 = Linked ∧
            _ws (peer (link ws now flush w).1) = Some ws
  | Throw msg =>
      ∃ w4, (link ws now flush w) =
            (set_reconnecting false (unlink now w4), Failed msg)
  end.
Proof.
  intros Hrec. unfold Peer.link. rewrite Hrec.
  destruct flush as [[]|msg].
  - by destruct (_disconnectionTimeout (peer w)).
  - by eexists.
Qed.

Lemma step_eviction_pending o w w' :
  _reconnecting (peer w) = false →
  eviction_pending w → step o w = Some w' → eviction_pending w'.
Proof.
  intros Hrec HI Hs.
  destruct o as [ws now flush | now | reason | t now]; simpl in Hs.
  - injection Hs as <-. pose proof (link_outcome ws now flush w Hrec) as Hl.
    destruct flush as [[]|msg].
    + destruct Hl as [_ Hws]. intros Hnone. congruence.
    + destruct Hl as [w4 ->]. simpl.
      intros H1 H2. by apply (unlink_eviction_pending now w4).
  - injection Hs as <-. apply unlink_eviction_pending.
  - injection Hs as <-. intros H1 H2.
    rewrite PeerFacts.close_peer in *. rewrite PeerFacts.close_closes in H2.
    rewrite not_elem_of_app in H2. destruct H2 as [H2 _].
    destruct (HI H1 H2) as (t & at_ & Ht & Hat & Hin).
    exists t, at_. split; [done|]. split; [done|].
    unfold close. destruct (_ws (peer w)); done.
  - unfold fire, on_timeout, isConnected in Hs.
    case_decide; [|done]. destruct (due t <=? now)%Z; [|done].
    simpl in Hs. destruct (_ws (peer w)) eqn:Hws; injection Hs as <-.
    + intros Hnone. simpl in Hnone. congruence.
    + intros _ Hcl. destruct Hcl. rewrite PeerFacts.close_closes.
      rewrite elem_of_app, list_elem_of_singleton. by right.
Qed.

(** X9. Eviction is never lost.  From construction on, whatever
    sequence of [link], [unlink], [close] and timer firings the peer goes
    through: while it has no transport handle and no timer has closed it
    for timing out, the timer it holds is pending, due exactly one eviction
    delay after the time stamped in [_disconnectedAt]. *)
Theorem eviction_never_lost uuid ws0 opt_id opt_ttl (w : World) :
  reachable (constructor uuid ws0 opt_id opt_ttl) w →
  _ws (peer w) = None → "Connection timed out" ∉ closes w →
  ∃ t at_, _disconnectionTimeout (peer w) = Some t ∧
           _disconnectedAt (peer w) = Some at_ ∧
           {| timer := t; due := (at_ + delay)%Z |} ∈ timers w.
Proof.
  intros Hr. change (eviction_pending w).
  induction Hr as [|w o w' Hr IH Hs]; [by intros ?|].
  eapply step_eviction_pending; [|exact IH|exact Hs].
  eapply PeerFacts.reachable_not_reconnecting; [|exact Hr]. done.
Qed.

(** X10. A [link] whose buffer flush throws reverts to the disconnected
    state: it fails with the flush's error; the peer has no handle;
    [_disconnectedAt] is the time of the attempt (and so is
    [_lastConnected]); the timer the peer held has been cleared and a new
    one, due one eviction delay later, is pending and held; the failure is
    reported between the peer's own [starling:connected] event and the two
    [starling:disconnected] events of [unlink]. *)
Theorem link_failure_reverts ws now msg (w : World) :
  _reconnecting (peer w) = false →
  let w' := (link ws now (Throw msg) w).1 in
  (link ws now (Throw msg) w).2 = Failed msg ∧
  _ws (peer w') = None ∧
  _disconnectedAt (peer w') = Some now ∧
  _lastConnected (peer w') = Some now ∧
  _reconnecting (peer w') = false ∧
  _disconnectionTimeout (peer w') = Some (next_timer w) ∧
  timers w' =
    match _disconnectionTimeout (peer w) with
    | Some t => filter (λ x, timer x ≠ t) (timers w)
    | None => timers w
    end ++ [{| timer := next_timer w; due := (now + delay)%Z |}] ∧
  map ev_name (emitted w') =
    map ev_name (emitted w) ++
    ["starling:connected"; "starling:reconnect:failed";
     "starling:disconnected"; "starling:disconnected"] ∧
  closes w' = closes w ∧ ws_closed w' = ws_closed w.
Proof.
  intros Hrec. unfold Peer.link. rewrite Hrec.
  destruct (_disconnectionTimeout (peer w)) as [t|]; simpl;
    rewrite !map_app; simpl; rewrite <- !app_assoc; done.
Qed.

(** X11. [unlink] overwrites the timer handle the peer holds without
    clearing the timer, and [link] clears only the timer held.  So after
    two [unlink]s in a row the first timer stays pending through a later
    [link]; if the peer is disconnected again when that timer comes due, it
    closes the peer - however recent the last disconnection is. *)
Theorem stale_timer_evicts (w : World) t0 t1 h t2 t3 now :
  _reconnecting (peer w) = false →
  (t0 + delay <= now)%Z →
  let stale := {| timer := next_timer w; due := (t0 + delay)%Z |} in
  let w3 := (link h t2 (Ok tt) (unlink t1 (unlink t0 w))).1 in
  let w4 := unlink t3 w3 in
  _ws (peer w3) = Some h ∧
  stale ∈ timers w3 ∧
  _disconnectedAt (peer w4) = Some t3 ∧
  ∃ w5, fire stale now w4 = Some w5 ∧
        closes w5 = closes w ++ ["Connection timed out"].
Proof.
  intros Hrec Hdue stale w3 w4.
  assert (Hin3 : stale ∈ timers w3).
  { unfold w3, Peer.link. simpl. rewrite Hrec. simpl.
    apply list_elem_of_filter. split; [simpl; lia|].
    rewrite !elem_of_app, !list_elem_of_singleton. left. by right. }
  assert (Hws : _ws (peer w3) = Some h).
  { unfold w3, Peer.link. simpl. by rewrite Hrec. }
  assert (Hcl : closes w4 = closes w).
  { unfold w4, w3, Peer.link. simpl. by rewrite Hrec. }
  split; [done|]. split; [done|]. split; [done|].
  unfold fire. rewrite decide_True.
  2:{ unfold w4. rewrite PeerFacts.unlink_timers, elem_of_app. by left. }
  assert (Hd : (due stale <=? now)%Z = true) by (apply Z.leb_le; done).
  rewrite Hd. eexists. split; [reflexivity|].
  unfold on_timeout, isConnected. simpl.
  unfold w3, Peer.link. simpl. by rewrite Hrec.
Qed.


End Lifecycle.

(** *** Worked cases *)

Definition born : World := constructor "peer-1" 1 None None.

Lemma eviction_never_lost_witness :
  let w := (Peer.link None 2 7 (Throw "flush failed") (Peer.unlink None 5 born)).1 in
  Peer.reachable None born w ∧
  _ws (peer w) = None ∧
  {| timer := 1; due := 300007 |} ∈ timers w.
Proof.
  set (w := (Peer.link None 2 7 (Throw "flush failed") (Peer.unlink None 5 born)).1).
  assert (Hr : Peer.reachable None born w).
  { eapply reachable_step with (o := Link 2 7 (Throw "flush failed"));
      [|reflexivity].
    eapply reachable_step with (o := Unlink 5); [apply reachable_new | reflexivity]. }
  assert (Hc : "Connection timed out" ∉ closes w)
    by (vm_compute; apply not_elem_of_nil).
  destruct (eviction_never_lost None "peer-1" 1 None None w Hr eq_refl Hc)
    as (t & at_ & Ht & Hat & Hin).
  split; [exact Hr|]. split; [reflexivity|].
  injection Ht as <-. injection Hat as <-. exact Hin.
Defined.

Lemma link_failure_reverts_witness :
  let w' := (Peer.link None 2 7 (Throw "flush failed") (Peer.unlink None 5 born)).1 in
  _ws (peer w') = None ∧ _disconnectedAt (peer w') = Some 7%Z ∧
  timers w' = [{| timer := 1; due := 300007 |}].
Proof.
  destruct (link_failure_reverts None 2 7 "flush failed"
              (Peer.unlink None 5 born) eq_refl)
    as (_ & H1 & H2 & _ & _ & _ & H3 & _).
  split; [exact H1|]. split; [exact H2 | exact H3].
Defined.

(** The peer drops at 0 and again at 10, reconnects at 20 and drops at
    299990; the timer of the first drop closes it at 300000, ten
    milliseconds after its last disconnection. *)
Lemma stale_timer_evicts_witness :
  let w4 := Peer.unlink None 299990
              (Peer.link None 2 20 (Ok tt)
                 (Peer.unlink None 10 (Peer.unlink None 0 born))).1 in
  _disconnectedAt (peer w4) = Some 299990%Z ∧
  ∃ w5, fire {| timer := 0; due := 300000 |} 300000 w4 = Some w5 ∧
        closes w5 = ["Connection timed out"].
Proof.
  destruct (stale_timer_evicts None born 0 10 2 20 299990 300000 eq_refl)
    as (_ & _ & H1 & H2); [vm_compute; discriminate|].
  split; [exact H1 | exact H2].
Defined.


End TimerFacts.

(** ** The registry: references, new peers, recovery and removal *)

Module RegistryInvariants.
Import States Registry RegistryQueries.

Section Manager.
Context {App : Type}.
Variable jwtVerify : string -> Res TokenPayload.
Variable helios_disconnectionTTL : option Z.

Abbreviation attempt := (_attemptRecovery jwtVerify helios_disconnectionTTL).
Abbreviation handle := (handleConnection jwtVerify helios_disconnectionTTL).
Abbreviation create := (_createNewStarling jwtVerify).
Abbreviation reachable := (RegistryQueries.reachable jwtVerify helios_disconnectionTTL).

Abbreviation peer_of o := (Peer.peer (world o)).

(** Both maps point into the heap, an id maps to a peer of that id, and
    no peer is in the middle of a [link]. *)
Record Sound (mgr : StarlingsManager App) : Prop := {
  sound_connections : ∀ ws r,
    _connections mgr !! ws = Some r → is_Some (heap mgr !! r);
  sound_ids : ∀ id r,
    _starlingsById mgr !! id = Some r →
    ∃ o, heap mgr !! r = Some o ∧ Peer.id (peer_of o) = id;
  sound_idle : ∀ r o,
    heap mgr !! r = Some o → Peer._reconnecting (peer_of o) = false
}.

Lemma link_id ws now flush w :
  Peer.id (Peer.peer (Peer.link helios_disconnectionTTL ws now flush w).1) =
  Peer.id (Peer.peer w).
Proof.
  unfold Peer.link. destruct (Peer._reconnecting (Peer.peer w)); [done|].
  destruct flush; destruct (Peer._disconnectionTimeout (Peer.peer w)); done.
Qed.

(** Replacing an object by one with the same id keeps the registry
    sound. *)
Lemma Sound_update (mgr : StarlingsManager App) r o o' conns l :
  Sound mgr → heap mgr !! r = Some o →
  Peer.id (peer_of o') = Peer.id (peer_of o) →
  Peer._reconnecting (peer_of o') = false →
  (∀ ws r', conns !! ws = Some r' → is_Some (heap mgr !! r')) →
  Sound {| heap := <[r := o']> (heap mgr); _connections := conns;
           _starlingsById := _starlingsById mgr; log := l |}.
Proof.
  intros [H1 H2 H3] Hr Hid Hrec Hc. split; simpl.
  - intros ws r' Hws. rewrite lookup_insert. case_decide; [by eexists|eauto].
  - intros id r' Hi. destruct (H2 _ _ Hi) as (o1 & Ho1 & Hid1).
    rewrite lookup_insert. case_decide; [|eauto].
    subst r'. exists o'. split; [done|]. congruence.
  - intros r' o1. rewrite lookup_insert. case_decide; [|eauto].
    by intros [= <-].
Qed.

Lemma Sound_emit name msg (mgr : StarlingsManager App) :
  Sound mgr → Sound (emit name msg mgr).
Proof. by intros [H1 H2 H3]. Qed.

Lemma delete_connection_lookup k (mgr : StarlingsManager App) ws r :
  _connections (delete_connection k mgr) !! ws = Some r →
  _connections mgr !! ws = Some r.
Proof.
  destruct k as [h| |]; simpl; [|done..].
  rewrite lookup_delete. by case_decide.
Qed.

Lemma Sound_attempt ws token now flush (mgr : StarlingsManager App) :
  Sound mgr → Sound (attempt ws token now flush mgr).1.
Proof.
  intros HS. pose proof HS as [H1 H2 H3]. unfold _attemptRecovery.
  destruct (jwtVerify token) as [payload|msg]; [|done].
  destruct (_starlingsById mgr !! starlingId payload) as [r|]; [|done].
  destruct (heap mgr !! r) as [o|] eqn:Hr; [|done].
  set (mgr1 := match get (ws_key o) mgr with
               | Some _ => delete_connection (ws_key o) mgr
               | None => mgr end).
  assert (Hh : heap mgr1 = heap mgr ∧ _starlingsById mgr1 = _starlingsById mgr).
  { unfold mgr1. destruct (get (ws_key o) mgr); [|done]. by destruct (ws_key o). }
  assert (Hc : ∀ h r', _connections mgr1 !! h = Some r' →
                       _connections mgr !! h = Some r').
  { unfold mgr1. destruct (get (ws_key o) mgr); [|done].
    apply delete_connection_lookup. }
  destruct Hh as [Hh Hi].
  pose proof (link_id ws now flush (world o)) as Hid.
  pose proof (PeerFacts.link_reconnecting helios_disconnectionTTL ws now flush
                (world o) (H3 _ _ Hr)) as Hrec.
  destruct (Peer.link helios_disconnectionTTL ws now flush (world o))
    as [w outcome]. simpl in Hid, Hrec.
  assert (HS2 : ∀ conns l,
            (∀ h r', conns !! h = Some r' → is_Some (heap mgr !! r')) →
            Sound {| heap := <[r := {| world := w; _states := _states o;
                                       data := data o |}]> (heap mgr1);
                     _connections := conns;
                     _starlingsById := _starlingsById mgr1; log := l |}).
  { intros conns l Hconns. rewrite Hh, Hi. by eapply Sound_update. }
  destruct outcome; simpl.
  - apply Sound_emit, HS2. intros h r'. rewrite lookup_insert.
    case_decide; [intros [= <-]; by eexists | intros ?%Hc; eauto].
  - apply Sound_emit, HS2. intros h r'. rewrite lookup_insert.
    case_decide; [intros [= <-]; by eexists | intros ?%Hc; eauto].
  - apply HS2. intros h r' ?%Hc. eauto.
Qed.

Lemma Sound_create ws recover uuid (init : App) (mgr : StarlingsManager App) :
  Sound mgr → Sound (create ws recover uuid init mgr).1.
Proof.
  intros [H1 H2 H3].
  destruct (RegistryFacts.createNewStarling_spec jwtVerify ws recover uuid init mgr)
    as (Hfresh & _ & _ & _).
  revert Hfresh. unfold _createNewStarling.
  destruct (construct (App := App) uuid) as [sm registered].
  set (r := fresh (dom (heap mgr))).
  destruct (given recover) as [token|]; simpl; intros Hfresh.
  all: split; simpl.
  all: try (intros h r'; rewrite lookup_insert; case_decide;
            [intros [= <-]; rewrite lookup_insert_eq; by eexists|];
            intros Hh; destruct (H1 _ _ Hh) as [o Ho];
            rewrite lookup_insert_ne by congruence; by eexists).
  all: try (intros id r'; rewrite lookup_insert; case_decide;
            [intros [= <-]; rewrite lookup_insert_eq; subst; by eexists|];
            intros Hi; destruct (H2 _ _ Hi) as (o & Ho & Hid);
            rewrite lookup_insert_ne by congruence; by eexists).
  all: intros r' o; rewrite lookup_insert; case_decide;
       [by intros [= <-] | eauto].
Qed.

Lemma Sound_handle ws recover uuid (init : App) now flush
  (mgr : StarlingsManager App) :
  Sound mgr → Sound (handle ws recover uuid init now flush mgr).1.
Proof.
  intros HS. unfold handleConnection.
  destruct (given recover) as [token|]; [|by apply Sound_create].
  pose proof (Sound_attempt ws token now flush mgr HS) as HA.
  destruct (attempt ws token now flush mgr) as [mgr1 [[r|]|msg]]; simpl in *.
  - done.
  - by apply Sound_create.
  - by apply Sound_create, Sound_emit.
Qed.

Lemma Sound_close ws now (mgr : StarlingsManager App) :
  Sound mgr → Sound (handlers_close helios_disconnectionTTL ws now mgr).
Proof.
  intros HS. pose proof HS as [H1 H2 H3]. unfold handlers_close. simpl.
  destruct (_connections mgr !! ws) as [r|]; [|done].
  destruct (heap mgr !! r) as [o|] eqn:Hr; [|done].
  eapply Sound_update; eauto.
  change (Peer._reconnecting (peer_of o) = false). eauto.
Qed.

Lemma Sound_remove r (mgr : StarlingsManager App) :
  Sound mgr → Sound (remove r mgr).1.
Proof.
  intros HS. pose proof HS as [H1 H2 H3]. unfold remove.
  destruct (heap mgr !! r) as [o|]; [|done].
  destruct (_starlingsById mgr !! Peer.id (peer_of o)); [|done].
  assert (Hd : heap (delete_connection (ws_key o) mgr) = heap mgr ∧
               _starlingsById (delete_connection (ws_key o) mgr)
                 = _starlingsById mgr) by by destruct (ws_key o).
  destruct Hd as [Hh Hi]. split; simpl; rewrite ?Hh, ?Hi.
  - intros ws r' Hws. apply delete_connection_lookup in Hws. eauto.
  - intros id r'. rewrite lookup_delete. case_decide; [done|eauto].
  - eauto.
Qed.

Lemma Sound_timeout r t now (mgr mgr' : StarlingsManager App) :
  Sound mgr → timeout r t now mgr = Some mgr' → Sound mgr'.
Proof.
  intros HS. pose proof HS as [H1 H2 H3]. unfold timeout.
  destruct (heap mgr !! r) as [o|] eqn:Hr; [|done].
  destruct (Peer.fire t now (world o)) as [w|] eqn:Hf; [|done].
  intros [= <-]. apply PeerFacts.fire_peer in Hf.
  eapply Sound_update; eauto; simpl; rewrite Hf; eauto.
Qed.

Lemma reachable_Sound (mgr : StarlingsManager App) : reachable mgr → Sound mgr.
Proof.
  induction 1 as [|mgr o mgr' _ IH Hs].
  - split; simpl; intros *; by rewrite lookup_empty.
  - destruct o as [ws recover uuid init now flush | ws now | r | r t now];
      simpl in Hs; simplify_eq.
    + by apply Sound_handle.
    + by apply Sound_close.
    + by apply Sound_remove.
    + by eapply Sound_timeout.
Qed.

(** X13. No reference of the registry dangles.  Whatever connections
    open and close, whatever peers are removed and whatever timers fire:
    each handle in [_connections] and each id in [_starlingsById] leads to a
    peer object, the peer found under an id has that id, and no peer is
    left with its [_reconnecting] flag set - so a recovery is never turned
    away as a duplicate. *)
Theorem registry_sound (mgr : StarlingsManager App) :
  reachable mgr →
  (∀ ws r, get (KHandle ws) mgr = Some r → is_Some (heap mgr !! r)) ∧
  (∀ id r, getById (KString id) mgr = Some r →
     ∃ o, heap mgr !! r = Some o ∧ Peer.id (peer_of o) = id) ∧
  (∀ r o ws now flush, heap mgr !! r = Some o →
     (Peer.link helios_disconnectionTTL ws now flush (world o)).2 ≠ Peer.Ignored).
Proof.
  intros [H1 H2 H3]%reachable_Sound. split; [done|]. split; [done|].
  intros r o ws now flush Hr. unfold Peer.link. rewrite (H3 _ _ Hr).
  by destruct flush.
Qed.

Definition registered (ns : string) : Event :=
  {| ev_name := "state:registered";
     ev_message := "State provider registered for namespace " +:+ ns |}.

(** X14. A connection without a recovery token (none, or the empty
    string) always makes a new peer: [handleConnection] returns; a peer
    object that did not exist is created with the id drawn, the handle, a
    fresh states manager and the initial application state; it is entered
    under the handle and under the id; every other object and every other
    entry of the two maps is untouched; the events emitted are the two core
    registrations and [starling:new]; and the verifier plays no part. *)
Theorem handleConnection_new ws recover uuid (init : App) now flush
  (mgr : StarlingsManager App) :
  given recover = None →
  let mgr' := (handle ws recover uuid init now flush mgr).1 in
  (handle ws recover uuid init now flush mgr).2 = Ok tt ∧
  (∃ r, heap mgr !! r = None ∧
        heap mgr' !! r =
          Some {| world := Peer.constructor uuid ws None None;
                  _states := constructor uuid; data := init |} ∧
        get (KHandle ws) mgr' = Some r ∧
        getById (KString uuid) mgr' = Some r ∧
        ∀ r', r' ≠ r → heap mgr' !! r' = heap mgr !! r') ∧
  (∀ ws', ws' ≠ ws → get (KHandle ws') mgr' = get (KHandle ws') mgr) ∧
  (∀ id, id ≠ uuid → getById (KString id) mgr' = getById (KString id) mgr) ∧
  log mgr' = log mgr ++ [registered "connection"; registered "info";
                         {| ev_name := "starling:new";
                            ev_message := "New Starling " +:+ uuid +:+ " created" |}] ∧
  (getById (KString uuid) mgr = None → totalCount mgr' = S (totalCount mgr)) ∧
  ∀ verify', handleConnection verify' helios_disconnectionTTL
               ws recover uuid init now flush mgr
             = handle ws recover uuid init now flush mgr.
Proof.
  intros Hg. unfold handleConnection, _createNewStarling. rewrite Hg. simpl.
  split; [done|]. split; [|split; [|split; [|split; [|split]]]].
  - exists (fresh (dom (heap mgr))).
    split; [apply not_elem_of_dom, is_fresh|].
    rewrite !lookup_insert_eq. repeat split.
    intros r' Hne. by rewrite lookup_insert_ne.
  - intros ws' Hne. by rewrite lookup_insert_ne.
  - intros id Hne. by rewrite lookup_insert_ne.
  - by rewrite <- app_assoc.
  - intros Hnone. unfold totalCount. simpl. by apply map_size_insert_None.
  - done.
Qed.

(** X15. A recovery that succeeds reuses the peer.  When the token
    verifies and names a registered peer, and the buffer flush goes
    through, [handleConnection] returns without creating a peer: the heap
    holds the same objects and [_starlingsById] is unchanged; the new handle
    maps to the existing peer and is the peer's handle; the handle the peer
    had, if any, is no longer mapped; the peer's states manager and
    application state are the ones it had - the token's snapshots are not
    restored; the one event emitted is [starling:recovered]. *)
Theorem handleConnection_recovers ws recover token payload uuid (init : App)
  now r o (mgr : StarlingsManager App) :
  given recover = Some token →
  jwtVerify token = Ok payload →
  getById (KString (starlingId payload)) mgr = Some r →
  heap mgr !! r = Some o →
  Peer._reconnecting (peer_of o) = false →
  let mgr' := (handle ws recover uuid init now (Ok tt) mgr).1 in
  (handle ws recover uuid init now (Ok tt) mgr).2 = Ok tt ∧
  dom (heap mgr') = dom (heap mgr) ∧
  _starlingsById mgr' = _starlingsById mgr ∧
  get (KHandle ws) mgr' = Some r ∧
  (∃ o', heap mgr' !! r = Some o' ∧
         Peer._ws (peer_of o') = Some ws ∧
         Peer.id (peer_of o') = Peer.id (peer_of o) ∧
         Peer._lastConnected (peer_of o') = Some now ∧
         Peer._disconnectionTimeout (peer_of o') = None ∧
         _states o' = _states o ∧ data o' = data o) ∧
  (∀ r', r' ≠ r → heap mgr' !! r' = heap mgr !! r') ∧
  (∀ h, Peer._ws (peer_of o) = Some h → h ≠ ws →
        get (KHandle h) mgr' = None) ∧
  log mgr' = log mgr ++
    [{| ev_name := "starling:recovered";
        ev_message := "Starling " +:+ Peer.id (peer_of o) +:+ " recovered" |}].
Proof.
  intros Hg Hv Hi Hr Hrec. simpl in Hi.
  unfold handleConnection, _attemptRecovery. rewrite Hg, Hv, Hi, Hr.
  set (mgr1 := match get (ws_key o) mgr with
               | Some _ => delete_connection (ws_key o) mgr
               | None => mgr end).
  assert (Hh : heap mgr1 = heap mgr ∧ _starlingsById mgr1 = _starlingsById mgr
               ∧ log mgr1 = log mgr).
  { unfold mgr1. destruct (get (ws_key o) mgr); [|done]. by destruct (ws_key o). }
  destruct Hh as (Hh & Hids & Hlog).
  assert (Hold : ∀ h, Peer._ws (peer_of o) = Some h →
                      _connections mgr1 !! h = None).
  { intros h Hws. unfold mgr1, ws_key. rewrite Hws. simpl.
    destruct (_connections mgr !! h) eqn:Hc; [|done].
    simpl. by rewrite lookup_delete_eq. }
  unfold Peer.link. rewrite Hrec.
  destruct (Peer._disconnectionTimeout (peer_of o)) as [t|]; simpl;
    rewrite Hh, Hids, Hlog.
  all: split; [done|]; split; [by rewrite dom_insert_lookup_L|];
       split; [done|]; split; [by rewrite lookup_insert_eq|];
       split; [eexists; rewrite lookup_insert_eq; by repeat split|];
       split; [by intros r' Hne; rewrite lookup_insert_ne|];
       split; [|done];
       intros h Hws Hne; rewrite lookup_insert_ne by done; by apply Hold.
Qed.

(** X16. [remove] is idempotent, and reports it: a second [remove] of
    the same peer returns false and changes nothing, as does a first one
    that returns false.  A [remove] that returns true has taken the peer out
    from under its id and from under its current handle, left every peer
    object alone, and emitted [starling:removed]. *)
Theorem remove_idempotent r (mgr : StarlingsManager App) :
  let mgr1 := (remove r mgr).1 in
  remove r mgr1 = (mgr1, false) ∧
  ((remove r mgr).2 = false → mgr1 = mgr) ∧
  ((remove r mgr).2 = true →
     ∃ o, heap mgr !! r = Some o ∧
          getById (KString (Peer.id (peer_of o))) mgr1 = None ∧
          get (ws_key o) mgr1 = None ∧
          heap mgr1 = heap mgr ∧
          (∀ id, id ≠ Peer.id (peer_of o) →
                 getById (KString id) mgr1 = getById (KString id) mgr) ∧
          log mgr1 = log mgr ++
            [{| ev_name := "starling:removed";
                ev_message := "Starling " +:+ Peer.id (peer_of o) +:+ " removed" |}]).
Proof.
  unfold remove. destruct (heap mgr !! r) as [o|] eqn:Hr; simpl.
  2:{ rewrite Hr. done. }
  destruct (_starlingsById mgr !! Peer.id (peer_of o)) as [r0|] eqn:Hi; simpl.
  2:{ rewrite Hr, Hi. done. }
  assert (Hd : heap (delete_connection (ws_key o) mgr) = heap mgr ∧
               _starlingsById (delete_connection (ws_key o) mgr)
                 = _starlingsById mgr ∧
               log (delete_connection (ws_key o) mgr) = log mgr)
    by by destruct (ws_key o).
  destruct Hd as (Hh & Hids & Hlog). rewrite Hh, Hids, Hlog, Hr.
  rewrite lookup_delete_eq. split; [done|]. split; [done|].
  intros _. exists o. split; [done|]. split; [apply lookup_delete_eq|].
  split; [|split; [done|split; [|done]]].
  - unfold ws_key. destruct (Peer._ws (peer_of o)); simpl; [|done].
    apply lookup_delete_eq.
  - intros id Hne. by rewrite lookup_delete_ne.
Qed.

(** X17. The closed handle stays mapped.  A peer connected on [ws1]
    whose transport closes and who then recovers on [ws2] is found under
    both handles: at recovery its own handle is already null, so there is no
    old mapping [_attemptRecovery] could delete.  [remove] deletes the
    mapping of the current handle only: the removed peer, gone from under
    its id, is still returned by [get(ws1)]. *)
Theorem closed_handle_stays_mapped ws1 ws2 recover token payload uuid
  (init : App) t1 t2 r o (mgr : StarlingsManager App) :
  get (KHandle ws1) mgr = Some r →
  heap mgr !! r = Some o →
  Peer._ws (peer_of o) = Some ws1 →
  Peer._reconnecting (peer_of o) = false →
  given recover = Some token →
  jwtVerify token = Ok payload →
  starlingId payload = Peer.id (peer_of o) →
  getById (KString (Peer.id (peer_of o))) mgr = Some r →
  ws2 ≠ ws1 →
  let dropped := handlers_close helios_disconnectionTTL ws1 t1 mgr in
  let recovered := (handle ws2 recover uuid init t2 (Ok tt) dropped).1 in
  let removed := (remove r recovered).1 in
  get (KHandle ws1) recovered = Some r ∧
  get (KHandle ws2) recovered = Some r ∧
  (∃ o', heap recovered !! r = Some o' ∧ Peer._ws (peer_of o') = Some ws2) ∧
  (remove r recovered).2 = true ∧
  getById (KString (Peer.id (peer_of o))) removed = None ∧
  get (KHandle ws2) removed = None ∧
  get (KHandle ws1) removed = Some r.
Proof.
  intros Hc Hr Hws Hrec Hg Hv Hid Hi Hne. simpl in Hc, Hi.
  intros dropped.
  assert (Hd : dropped =
    {| heap := <[r := {| world := Peer.unlink helios_disconnectionTTL t1 (world o);
                         _states := _states o; data := data o |}]> (heap mgr);
       _connections := _connections mgr;
       _starlingsById := _starlingsById mgr; log := log mgr |}).
  { unfold dropped, handlers_close. simpl. by rewrite Hc, Hr. }
  clearbody dropped. subst dropped. intros recovered.
  assert (Hrecovered : ∃ w,
    Peer._ws (Peer.peer w) = Some ws2 ∧
    Peer.id (Peer.peer w) = Peer.id (peer_of o) ∧
    heap recovered !! r =
      Some {| world := w; _states := _states o; data := data o |} ∧
    _connections recovered = <[ws2 := r]> (_connections mgr) ∧
    _starlingsById recovered = _starlingsById mgr).
  { unfold recovered, handleConnection, _attemptRecovery.
    rewrite Hg, Hv, Hid. simpl. rewrite Hi, lookup_insert_eq.
    unfold ws_key. simpl. unfold Peer.link. simpl. rewrite Hrec. simpl.
    eexists.
    split; [|split; [|split; [rewrite lookup_insert_eq; reflexivity|]]];
      [reflexivity | reflexivity | split; reflexivity]. }
  clearbody recovered.
  destruct Hrecovered as (w & Hw & Hwid & Hheap & Hconn & Hids).
  simpl. rewrite Hconn, lookup_insert_eq, lookup_insert_ne, Hc by done.
  split; [done|]. split; [done|]. split; [by eexists|].
  unfold remove. rewrite Hheap. simpl. rewrite Hwid, Hids, Hi.
  unfold ws_key. simpl. rewrite Hw. simpl.
  rewrite Hids, Hconn, !lookup_delete_eq.
  rewrite lookup_delete_ne, lookup_insert_ne by done. done.
Qed.

(** X18. The fallback after a failed recovery never restores anything.
    When a connection carries a token and recovery does not succeed, a new
    peer is created under a freshly drawn id and [restore] is run on it with
    the same token.  That [restore] always throws: either the token does not
    verify, or it names another peer than the new one ("Token starling ID
    mismatch").  No provider is called, the new peer starts from the initial
    application state, and the failure is reported as
    [starling:state:restore:failed]. *)
Theorem fallback_never_restores ws recover token uuid (init : App) now flush
  (mgr : StarlingsManager App) :
  given recover = Some token →
  (∀ r, (attempt ws token now flush mgr).2 ≠ Ok (Some r)) →
  (∀ payload, jwtVerify token = Ok payload → starlingId payload ≠ uuid) →
  let mgr' := (handle ws recover uuid init now flush mgr).1 in
  let rs := restore jwtVerify (constructor (App := App) uuid) token init in
  restore_calls rs = [] ∧ app_after rs = init ∧
  ∃ msg, result rs = Throw msg ∧
         (msg = "Token starling ID mismatch" ∨ jwtVerify token = Throw msg) ∧
         RegistryFacts.restoration_failed msg ∈ log mgr' ∧
         ∃ r o, getById (KString uuid) mgr' = Some r ∧
                heap mgr' !! r = Some o ∧ data o = init.
Proof.
  intros Hg Hfail Hfresh mgr' rs.
  assert (Hrs : restore_calls rs = [] ∧ app_after rs = init ∧
                ∃ msg, result rs = Throw msg ∧
                  (msg = "Token starling ID mismatch" ∨ jwtVerify token = Throw msg)).
  { unfold rs, restore. destruct (jwtVerify token) as [payload|msg] eqn:Hv.
    - rewrite decide_False by (by apply Hfresh). simpl.
      split; [done|]. split; [done|]. eexists. split; [done|]. by left.
    - simpl. split; [done|]. split; [done|]. eexists. split; [done|]. by right. }
  destruct Hrs as (Hcalls & Happ & msg & Hres & Hmsg).
  split; [done|]. split; [done|]. exists msg. split; [done|]. split; [done|].
  unfold mgr', handleConnection. rewrite Hg.
  destruct (attempt ws token now flush mgr) as [mgr1 outcome] eqn:Ha.
  simpl in Hfail.
  set (mgr2 := match outcome with
               | Throw m => emit "starling:recovery:failed"
                              ("Recovery failed: " +:+ m) mgr1
               | Ok _ => mgr1 end).
  assert (Hgoal :
    (let '(mgr1, shouldCreateNewStarling) :=
       match outcome with
       | Ok (Some _) => (mgr1, false)
       | Ok None => (mgr1, true)
       | Throw m =>
           (emit "starling:recovery:failed" ("Recovery failed: " +:+ m) mgr1, true)
       end in
     if shouldCreateNewStarling
     then ((create ws recover uuid init mgr1).1, Ok tt)
     else (mgr1, Ok tt)) =
    ((create ws recover uuid init mgr2).1, Ok tt)).
  { unfold mgr2. destruct outcome as [[r|]|m]; [|done..]. by destruct (Hfail r). }
  rewrite Hgoal. simpl.
  destruct (RegistryFacts.createNewStarling_spec jwtVerify ws recover uuid init mgr2)
    as (_ & _ & Hi & (o & Ho & _ & _ & _ & Hd) & _ & Hlog).
  destruct (Hlog token Hg) as [_ Hthrow].
  split; [by apply Hthrow|].
  eexists _, o. split; [exact Hi|]. split; [exact Ho|].
  rewrite (Hd token Hg). exact Happ.
Qed.

(** X19. Eviction does not unregister.  When the eviction timer of a
    disconnected peer fires, the peer is closed with "Connection timed out"
    and nothing else happens: both maps of the registry, and so
    [totalCount], are as before, and the peer object keeps its fields.  The
    evicted peer is still found under its id, and a connection presenting a
    token for it is still answered by recovering it. *)
Theorem eviction_keeps_registration r t now o (mgr mgr' : StarlingsManager App) :
  heap mgr !! r = Some o →
  Peer._ws (peer_of o) = None →
  Peer._reconnecting (peer_of o) = false →
  timeout r t now mgr = Some mgr' →
  _connections mgr' = _connections mgr ∧
  _starlingsById mgr' = _starlingsById mgr ∧
  totalCount mgr' = totalCount mgr ∧
  (∃ o', heap mgr' !! r = Some o' ∧ peer_of o' = peer_of o ∧
         Peer.closes (world o') =
           Peer.closes (world o) ++ ["Connection timed out"]) ∧
  (∀ ws token payload later,
     jwtVerify token = Ok payload →
     getById (KString (starlingId payload)) mgr = Some r →
     (attempt ws token later (Ok tt) mgr').2 = Ok (Some r) ∧
     get (KHandle ws) (attempt ws token later (Ok tt) mgr').1 = Some r).
Proof.
  intros Hr Hws Hrec. unfold timeout. rewrite Hr.
  destruct (Peer.fire t now (world o)) as [w|] eqn:Hf; [|done].
  intros [= <-]. simpl.
  pose proof (PeerFacts.fire_peer _ _ _ _ Hf) as Hp.
  assert (Hc : Peer.closes w = Peer.closes (world o) ++ ["Connection timed out"]).
  { unfold Peer.fire, Peer.on_timeout, Peer.isConnected in Hf.
    case_decide; [|done]. destruct (Peer.due t <=? now)%Z; [|done].
    simpl in Hf. rewrite Hws in Hf. injection Hf as <-.
    by rewrite PeerFacts.close_closes. }
  split; [done|]. split; [done|]. split; [done|].
  split; [eexists; rewrite lookup_insert_eq; by repeat split|].
  intros ws token payload later Hv Hi. simpl in Hi.
  unfold _attemptRecovery. rewrite Hv. simpl. rewrite Hi, lookup_insert_eq.
  unfold ws_key. simpl. rewrite Hp, Hws. simpl.
  unfold Peer.link. rewrite Hp, Hrec.
  destruct (Peer._disconnectionTimeout (peer_of o)); simpl;
    by rewrite lookup_insert_eq.
Qed.

End Manager.

(** *** Worked cases *)

(** A verifier that reads every token as naming ["p1"], and the registry
    after ["p1"] has connected on handle 1. *)
Definition names_p1 : string -> Res TokenPayload :=
  λ _, Ok {| starlingId := "p1"; states := []; timestamp := 0; claims := [] |}.

Definition connected_p1 : StarlingsManager unit :=
  (handleConnection names_p1 None 1 None "p1" tt 0 (Ok tt) Registry.empty).1.

Lemma reachable_connected_p1 :
  RegistryQueries.reachable names_p1 None connected_p1.
Proof.
  eapply reachable_step with (o := Open 1 None "p1" tt 0%Z (Ok tt));
    [apply reachable_empty | reflexivity].
Defined.

Lemma registry_sound_witness :
  RegistryQueries.reachable names_p1 None connected_p1 ∧
  get (KHandle 1) connected_p1 = Some 0 ∧
  is_Some (heap connected_p1 !! 0).
Proof.
  split; [exact reachable_connected_p1|]. split; [reflexivity|].
  exact (proj1 (registry_sound names_p1 None connected_p1
                  reachable_connected_p1) 1 0 eq_refl).
Defined.

Lemma handleConnection_new_witness :
  let mgr' := (handleConnection names_p1 None 2 (Some "") "p2" tt 5 (Ok tt)
                 connected_p1).1 in
  given (Some "") = None ∧
  totalCount mgr' = 2 ∧
  map ev_name (log mgr') =
    ["state:registered"; "state:registered"; "starling:new";
     "state:registered"; "state:registered"; "starling:new"].
Proof.
  destruct (handleConnection_new names_p1 None 2 (Some "") "p2" tt 5%Z (Ok tt)
              connected_p1 eq_refl) as (_ & _ & _ & _ & Hlog & Hcount & _).
  split; [reflexivity|]. split; [exact (Hcount eq_refl)|].
  exact (f_equal (map ev_name) Hlog).
Defined.

Lemma handleConnection_recovers_witness :
  let mgr' := (handleConnection names_p1 None 2 (Some "token") "p2" tt 5 (Ok tt)
                 connected_p1).1 in
  given (Some "token") = Some "token" ∧
  getById (KString "p1") connected_p1 = Some 0 ∧
  dom (heap mgr') = dom (heap connected_p1) ∧
  get (KHandle 2) mgr' = Some 0 ∧
  get (KHandle 1) mgr' = None.
Proof.
  destruct (handleConnection_recovers names_p1 None 2 (Some "token") "token"
              {| starlingId := "p1"; states := []; timestamp := 0; claims := [] |}
              "p2" tt 5%Z 0
              {| world := Peer.constructor "p1" 1 None None;
                 _states := constructor "p1"; data := tt |}
              connected_p1 eq_refl eq_refl eq_refl eq_refl eq_refl)
    as (_ & Hdom & _ & Hnew & _ & _ & Hold & _).
  split; [reflexivity|]. split; [reflexivity|]. split; [exact Hdom|].
  split; [exact Hnew|]. apply (Hold 1); [reflexivity | discriminate].
Defined.

Lemma closed_handle_stays_mapped_witness :
  let dropped := handlers_close None 1 10 connected_p1 in
  let recovered := (handleConnection names_p1 None 2 (Some "token") "p2" tt 20
                      (Ok tt) dropped).1 in
  let removed := (remove 0 recovered).1 in
  get (KHandle 1) recovered = Some 0 ∧
  getById (KString "p1") removed = None ∧
  get (KHandle 1) removed = Some 0.
Proof.
  destruct (closed_handle_stays_mapped names_p1 None 1 2 (Some "token") "token"
              {| starlingId := "p1"; states := []; timestamp := 0; claims := [] |}
              "p2" tt 10%Z 20%Z 0
              {| world := Peer.constructor "p1" 1 None None;
                 _states := constructor "p1"; data := tt |}
              connected_p1 eq_refl eq_refl eq_refl eq_refl eq_refl eq_refl
              eq_refl eq_refl)
    as (H1 & _ & _ & _ & H2 & _ & H3); [discriminate|].
  split; [exact H1|]. split; [exact H2 | exact H3].
Defined.

(** A token for a peer the registry does not hold: a new peer ["p9"] is
    made, and nothing is restored into it. *)
Definition names_ghost : string -> Res TokenPayload :=
  λ _, Ok {| starlingId := "ghost";
             states := [("connection", VNull); ("info", VNull)];
             timestamp := 0; claims := [] |}.

Lemma fallback_never_restores_witness :
  let mgr' := (handleConnection names_ghost None 2 (Some "token") "p9" tt 5
                 (Ok tt) connected_p1).1 in
  (_attemptRecovery names_ghost None 2 "token" 5 (Ok tt) connected_p1).2
    = Ok None ∧
  result (restore names_ghost (constructor (App := unit) "p9") "token" tt)
    = Throw "Token starling ID mismatch" ∧
  RegistryFacts.restoration_failed "Token starling ID mismatch" ∈ log mgr'.
Proof.
  destruct (fallback_never_restores names_ghost None 2 (Some "token") "token"
              "p9" tt 5%Z (Ok tt) connected_p1 eq_refl)
    as (_ & _ & msg & Hres & _ & Hlog & _).
  { intros r. vm_compute. discriminate. }
  { intros payload [= <-]. discriminate. }
  split; [reflexivity|]. split; [reflexivity|].
  assert (Hmsg : msg = "Token starling ID mismatch")
    by (vm_compute in Hres; congruence).
  rewrite <- Hmsg. exact Hlog.
Defined.

Lemma eviction_keeps_registration_witness :
  let dropped := handlers_close None 1 10 connected_p1 in
  ∃ evicted,
    timeout 0 {| Peer.timer := 0; Peer.due := 300010 |} 300010 dropped
      = Some evicted ∧
    totalCount evicted = 1 ∧
    getById (KString "p1") evicted = Some 0 ∧
    (_attemptRecovery names_p1 None 2 "token" 300020 (Ok tt) evicted).2
      = Ok (Some 0).
Proof.
  set (dropped := handlers_close None 1 10 connected_p1).
  destruct (timeout 0 {| Peer.timer := 0; Peer.due := 300010 |} 300010 dropped)
    as [evicted|] eqn:Ht; [|vm_compute in Ht; discriminate].
  destruct (eviction_keeps_registration names_p1 None 0
              {| Peer.timer := 0; Peer.due := 300010 |} 300010
              {| world := Peer.unlink None 10 (Peer.constructor "p1" 1 None None);
                 _states := constructor "p1"; data := tt |}
              dropped evicted eq_refl eq_refl eq_refl Ht)
    as (_ & Hids & Hcount & _ & Hrec).
  exists evicted. split; [exact Ht|]. split; [exact Hcount|].
  split; [unfold getById; rewrite Hids; reflexivity|].
  exact (proj1 (Hrec 2 "token"
                  {| starlingId := "p1"; states := []; timestamp := 0;
                     claims := [] |} 300020%Z eq_refl eq_refl)).
Defined.

End RegistryInvariants.

(** ** The registry: broadcast and counts *)

Module BroadcastFacts.
Import States Registry RegistryQueries.

Section Manager.
Context {App : Type}.
Variable jwtVerify : string -> Res TokenPayload.
Variable helios_disconnectionTTL : option Z.

Abbreviation reachable := (RegistryQueries.reachable jwtVerify helios_disconnectionTTL).
Abbreviation peer_of o := (Peer.peer (world o)).

Lemma values_elem_of (mgr : StarlingsManager App) r o :
  (r, o) ∈ values mgr ↔
  (∃ id, _starlingsById mgr !! id = Some r) ∧ heap mgr !! r = Some o.
Proof.
  unfold values. rewrite list_elem_of_omap. split.
  - intros ([id r'] & Hin & Hf). apply elem_of_map_to_list in Hin.
    simpl in Hf. destruct (heap mgr !! r') as [o'|] eqn:Hr; [|done].
    simpl in Hf. injection Hf as -> ->. eauto.
  - intros [[id Hid] Hr]. exists (id, r). split.
    + by apply elem_of_map_to_list.
    + simpl. by rewrite Hr.
Qed.

Lemma filter_elem_of {A} (p : A → bool) (l : list A) x :
  x ∈ List.filter p l ↔ x ∈ l ∧ p x = true.
Proof. rewrite !list_elem_of_In. apply filter_In. Qed.

Lemma filter_filter_length {A} (p q : A → bool) (l : list A) :
  (length (List.filter q (List.filter p l)) ≤ length (List.filter q l))%nat.
Proof.
  induction l as [|x l IH]; simpl; [done|].
  destruct (p x); simpl; destruct (q x); simpl; lia.
Qed.

Lemma filter_length_le {A} (q : A → bool) (l : list A) :
  (length (List.filter q l) ≤ length l)%nat.
Proof. induction l as [|x l IH]; simpl; [done|]. destruct (q x); simpl; lia. Qed.

Lemma omap_length_le {A B} (f : A → option B) (l : list A) :
  (length (omap f l) ≤ length l)%nat.
Proof.
  induction l as [|x l IH]; [done|]. cbn [omap list_omap].
  destruct (f x); cbn [length]; fold (omap f l); lia.
Qed.

Lemma NoDup_fst_filter {A B} (p : A * B → bool) (l : list (A * B)) :
  NoDup (map fst l) → NoDup (map fst (List.filter p l)).
Proof.
  induction l as [|x l IH]; simpl; [done|].
  intros [Hx Hl]%NoDup_cons. destruct (p x); simpl; [|auto].
  apply NoDup_cons. split; [|auto].
  intros ([a b] & Heq & Hin)%list_elem_of_fmap.
  apply filter_elem_of in Hin as [Hin _].
  apply Hx. rewrite Heq. apply (list_elem_of_fmap_2 fst _ _ Hin).
Qed.

(** In a sound registry no peer is listed twice. *)
Lemma values_NoDup (mgr : StarlingsManager App) :
  RegistryInvariants.Sound mgr → NoDup (map fst (values mgr)).
Proof.
  intros [_ H2 _]. unfold values.
  assert (Hin : ∀ id r, (id, r) ∈ map_to_list (_starlingsById mgr) →
                        ∃ o, heap mgr !! r = Some o ∧ Peer.id (peer_of o) = id).
  { intros id r Hin. apply elem_of_map_to_list in Hin. eauto. }
  pose proof (NoDup_fst_map_to_list (_starlingsById mgr)) as Hnd.
  induction (map_to_list (_starlingsById mgr)) as [|[id r] l IH]; simpl;
    [apply NoDup_nil_2|].
  simpl in Hnd. apply NoDup_cons in Hnd as [Hid Hnd].
  destruct (Hin id r) as (o & Hr & Ho); [left|]. rewrite Hr. simpl.
  apply NoDup_cons. split.
  - intros ([r' o'] & Heq & Hx)%list_elem_of_fmap. simpl in Heq. subst r'.
    apply list_elem_of_omap in Hx as ([id' r'] & Hx & Hf). simpl in Hf.
    destruct (heap mgr !! r') as [o''|] eqn:Hr'; [|done].
    simpl in Hf. injection Hf as -> ->.
    destruct (Hin id' r) as (o1 & Hr1 & Ho1); [by right|].
    assert (Heq : id' = id) by congruence.
    apply Hid. rewrite <- Heq. apply (list_elem_of_fmap_2 fst _ _ Hx).
  - apply IH; [|done]. intros id' r' Hx. apply Hin. by right.
Qed.

(** X20. [broadcast] reaches exactly the connected peers that pass the
    filter, once each.  In every registry state that connections,
    disconnections, removals and timers can produce: a peer is notified if
    and only if it is registered under an id, has a transport handle and
    (when a filter is given) satisfies it; what it is notified of is the
    topic and data given; no peer is notified twice; without a filter the
    number of notifications is [connectedCount], which never exceeds
    [totalCount]. *)
Theorem broadcast_selective topic data filter_ (mgr : StarlingsManager App) :
  reachable mgr →
  (∀ r n, (r, n) ∈ broadcast topic data filter_ mgr ↔
     n = (topic, data) ∧
     ∃ id o, getById (KString id) mgr = Some r ∧ heap mgr !! r = Some o ∧
             is_Some (Peer._ws (peer_of o)) ∧
             match filter_ with
             | Some predicate => predicate o = true
             | None => True
             end) ∧
  NoDup (map fst (broadcast topic data filter_ mgr)) ∧
  (length (broadcast topic data filter_ mgr) ≤ connectedCount mgr)%nat ∧
  length (broadcast topic data None mgr) = connectedCount mgr ∧
  (connectedCount mgr ≤ totalCount mgr)%nat.
Proof.
  intros HS%RegistryInvariants.reachable_Sound.
  assert (Hconn : ∀ x : Ref * Object App,
            connected x = true ↔ is_Some (Peer._ws (peer_of x.2))).
  { intros [r o]. unfold connected, Peer.isConnected. simpl.
    destruct (Peer._ws (peer_of o)); split; try done. }
  split; [|split; [|split; [|split]]].
  - intros r n. unfold broadcast. rewrite list_elem_of_fmap. split.
    + intros ([r' o] & [= -> ->] & Hin). split; [done|].
      apply filter_elem_of in Hin as [Hin Hc]. apply Hconn in Hc.
      destruct filter_ as [predicate|].
      * apply filter_elem_of in Hin as [Hin Hp].
        apply values_elem_of in Hin as [[id Hid] Hr]. exists id, o. eauto.
      * apply values_elem_of in Hin as [[id Hid] Hr]. exists id, o. eauto.
    + intros (-> & id & o & Hid & Hr & Hc & Hp). exists (r, o).
      split; [done|]. apply filter_elem_of. split; [|by apply Hconn].
      assert (Hin : (r, o) ∈ values mgr) by (apply values_elem_of; eauto).
      destruct filter_ as [predicate|]; [|done].
      by apply filter_elem_of.
  - unfold broadcast. rewrite map_map. simpl.
    change (map (λ x : Ref * Object App, x.1)) with (map (@fst Ref (Object App))).
    apply NoDup_fst_filter.
    destruct filter_ as [predicate|]; [apply NoDup_fst_filter|];
      by apply values_NoDup.
  - unfold broadcast, connectedCount. rewrite length_map.
    destruct filter_ as [predicate|]; [apply filter_filter_length | done].
  - unfold broadcast, connectedCount. by rewrite length_map.
  - unfold connectedCount, totalCount, values.
    etrans; [apply filter_length_le|]. etrans; [apply omap_length_le|].
    by rewrite length_map_to_list.
Qed.

End Manager.

(** *** A worked case: one peer connected, one disconnected *)

Definition two_peers : StarlingsManager unit :=
  handlers_close None 2 9
    (handleConnection RegistryInvariants.names_p1 None 2 None "p2" tt 5 (Ok tt)
       RegistryInvariants.connected_p1).1.

Lemma reachable_two_peers :
  RegistryQueries.reachable RegistryInvariants.names_p1 None two_peers.
Proof.
  eapply reachable_step with (o := Closed 2 9%Z); [|reflexivity].
  eapply reachable_step with (o := Open 2 None "p2" tt 5%Z (Ok tt));
    [apply RegistryInvariants.reachable_connected_p1 | reflexivity].
Defined.

Lemma broadcast_selective_witness :
  RegistryQueries.reachable RegistryInvariants.names_p1 None two_peers ∧
  totalCount two_peers = 2 ∧
  length (broadcast "news" VNull None two_peers) = connectedCount two_peers ∧
  ∀ r n, (r, n) ∈ broadcast "news" VNull None two_peers → n = ("news", VNull).
Proof.
  destruct (broadcast_selective RegistryInvariants.names_p1 None
              "news" VNull None two_peers reachable_two_peers)
    as (Hmem & _ & _ & Hlen & _).
  split; [exact reachable_two_peers|]. split; [reflexivity|].
  split; [exact Hlen|].
  intros r n Hin. exact (proj1 (proj1 (Hmem r n) Hin)).
Defined.

End BroadcastFacts.

(** ** Proxy routing: counters, tracking and what is sent *)

Module RoutingFacts.
Import Proxy ProxyRuns.

Section WithServer.
Variable starlings_has : Key -> Res bool.
Variable starlings_get : Key -> option Ref.
Variable send : Ref -> Outgoing -> Res unit.

Abbreviation handleProxy := (Proxy.handleProxy starlings_has starlings_get send).
Abbreviation handleProxyResponse := (Proxy.handleProxyResponse starlings_get send).
Abbreviation reachable := (ProxyRuns.reachable starlings_has starlings_get send).
Abbreviation allowed := ProxyFacts.allowed.

(** How far a message gets in [handleProxy]. *)
Inductive Stage :=
| Refused (msg : string)                 (* before a target is resolved *)
| Denied                                 (* no target, or one not registered *)
| Unsent (rule : Rule) (msg : string)    (* resolved, the send failed *)
| Sent (rule : Rule) (r : Ref).          (* handed to the target *)

Definition stage (message : Message) (source : Source) (now : Z)
  (pm : ProxyManager) : Stage :=
  match _rules pm with
  | None => Refused "No proxy rules configured"
  | Some rule =>
      if String.eqb (type message) "request" && negb (allowRequests (options rule))
      then Refused "Request proxying is disabled"
      else if String.eqb (type message) "notification"
              && negb (allowNotifications (options rule))
      then Refused "Notification proxying is disabled"
      else match handler rule message source with
           | Throw msg => Refused msg
           | Ok target =>
               if falsy target then Denied
               else match starlings_has target with
                    | Throw msg => Refused msg
                    | Ok false => Denied
                    | Ok true =>
                        match starlings_get target with
                        | None =>
                            Unsent rule
                              "Failed to send to target: undefined is not an object"
                        | Some r =>
                            match send r (_enrichMessage message source now) with
                            | Ok _ => Sent rule r
                            | Throw msg =>
                                Unsent rule ("Failed to send to target: " +:+ msg)
                            end
                        end
                    end
           end
  end.


Definition is_request (message : Message) : bool :=
  String.eqb (type message) "request".

(** The manager [handleProxy] leaves behind, stage by stage. *)
Definition counted (pm : ProxyManager) : ProxyManager :=
  with_metrics count_total pm.

Definition tracked (message : Message) (source : Source) (now : Z)
  (pm : ProxyManager) : ProxyManager :=
  if is_request message then _trackProxyRequest message source now pm else pm.

Definition failed (msg : string) (message : Message) (source : Source)
  (pm : ProxyManager) : ProxyManager :=
  let pm1 := emit "proxy:error" ("Proxy error: " +:+ msg) pm in
  if is_request message
  then deliver (ToSource (source_id source))
               (ProxyFailure (requestId message) msg) pm1
  else pm1.

Definition left_behind (message : Message) (source : Source)
  (start now finish : Z) (pm : ProxyManager) : ProxyManager :=
  match stage message source now pm with
  | Refused msg => failed msg message source (counted pm)
  | Denied =>
      failed "Proxy target not found or denied" message source
        (with_metrics count_denied (counted pm))
  | Unsent _ msg =>
      failed msg message source (tracked message source now (counted pm))
  | Sent _ r =>
      with_metrics (record_latency (finish - start))
        (with_metrics (count_type (type message))
           (deliver (ToPeer r) (_enrichMessage message source now)
              (tracked message source now (counted pm))))
  end.

Lemma metrics_eta (m : Metrics) :
  {| totalProxied := totalProxied m; activeProxies := activeProxies m;
     deniedProxies := deniedProxies m; successfulProxies := successfulProxies m;
     byType_request := byType_request m;
     byType_notification := byType_notification m;
     latencies := latencies m |} = m.
Proof. by destruct m. Qed.

Lemma active_restored (pm : ProxyManager) :
  with_metrics (add_active (-1)) (with_metrics (add_active 1) pm) = pm.
Proof.
  destruct pm as [rules m a ev ts s]. unfold with_metrics, add_active. simpl.
  f_equal. destruct m as [t ac d su br bn l]. simpl. f_equal. lia.
Qed.

(** [handleProxy], flattened: its result and the manager it leaves are
    determined by the stage the message reaches. *)
Lemma handleProxy_stage message source start now finish pm :
  handleProxy message source start now finish pm =
  (left_behind message source start now finish pm,
   Ok (match stage message source now pm with
       | Sent _ _ => true
       | _ => false
       end)).
Proof.
  rewrite <- (active_restored (left_behind message source start now finish pm)).
  unfold Proxy.handleProxy, Proxy.forward, _validateProxy, _resolveTarget,
    Proxy.denied, _sendToTarget, left_behind, stage, failed, tracked, counted,
    is_request, _handleProxyError.
  destruct pm as [rules m a ev ts s]. simpl.
  destruct rules as [rule|]; simpl; [|by destruct (String.eqb (type message) "request")].
  destruct (String.eqb (type message) "request" && negb (allowRequests (options rule)));
    simpl; [by destruct (String.eqb (type message) "request")|].
  destruct (String.eqb (type message) "notification"
            && negb (allowNotifications (options rule)));
    simpl; [by destruct (String.eqb (type message) "request")|].
  destruct (handler rule message source) as [target|msg]; simpl;
    [|by destruct (String.eqb (type message) "request")].
  destruct (falsy target); simpl;
    [by destruct (String.eqb (type message) "request")|].
  destruct (starlings_has target) as [[|]|msg]; simpl;
    [|by destruct (String.eqb (type message) "request")..].
  destruct (starlings_get target) as [r|]; simpl;
    [|by destruct (String.eqb (type message) "request")].
  destruct (String.eqb (type message) "request"); simpl;
    destruct (send r (_enrichMessage message source now)) as [[]|msg]; done.
Qed.

(** The rolling window of [_updateMetrics]. *)
Definition window (l : list Z) : list Z :=
  if (100 <? length l)%nat then tail l else l.

Lemma window_length l :
  (length l ≤ 101)%nat → (length (window l) ≤ 100)%nat.
Proof.
  unfold window. destruct (100 <? length l)%nat eqn:H.
  - destruct l; simpl in *; lia.
  - apply Nat.ltb_ge in H. lia.
Qed.

Lemma window_length_le l : (length (window l) ≤ length l)%nat.
Proof.
  unfold window. destruct (100 <? length l)%nat; [|done].
  destruct l; simpl; lia.
Qed.

(** The counters of the manager [left_behind]. *)
Lemma left_behind_counters message source start now finish pm :
  let m := _metrics pm in
  let m' := _metrics (left_behind message source start now finish pm) in
  totalProxied m' = (totalProxied m + 1)%Z ∧
  activeProxies m' = activeProxies m ∧
  successfulProxies m' = successfulProxies m ∧
  deniedProxies m' =
    (deniedProxies m +
     match stage message source now pm with Denied => 1 | _ => 0 end)%Z ∧
  match stage message source now pm with
  | Sent _ _ =>
      byType_request m' =
        (byType_request m + if is_request message then 1 else 0)%Z ∧
      byType_notification m' =
        (byType_notification m +
         if String.eqb (type message) "notification" then 1 else 0)%Z ∧
      latencies m' = window (latencies m ++ [(finish - start)%Z])
  | _ =>
      byType_request m' = byType_request m ∧
      byType_notification m' = byType_notification m ∧
      latencies m' = latencies m
  end.
Proof.
  unfold left_behind, failed, tracked, counted, is_request.
  destruct (stage message source now pm);
    destruct (String.eqb (type message) "request") eqn:E; simpl;
    rewrite ?E; repeat split; try lia;
    destruct (String.eqb (type message) "notification"); lia.
Qed.

(** The pending requests and timers of the manager [left_behind]. *)
Lemma left_behind_tracking message source start now finish pm :
  let after := left_behind message source start now finish pm in
  match stage message source now pm with
  | Sent rule _ | Unsent rule _ =>
      _rules pm = Some rule ∧
      if is_request message then
        _activeProxies after =
          <[requestId message :=
              {| sourceId := source_id source; timestamp := now |}]>
            (_activeProxies pm) ∧
        timers after =
          timers pm ++ [(requestId message, (now + timeout (options rule))%Z)]
      else _activeProxies after = _activeProxies pm ∧ timers after = timers pm
  | Refused _ | Denied =>
      _activeProxies after = _activeProxies pm ∧ timers after = timers pm
  end.
Proof.
  unfold left_behind, failed, tracked, counted.
  destruct (stage message source now pm) as [msg| |rule msg|rule r] eqn:Hs; simpl.
  1-2: by destruct (is_request message).
  all: assert (Hr : _rules pm = Some rule)
         by (unfold stage in Hs; repeat case_match; by simplify_eq).
  all: split; [done|]; destruct (is_request message); simpl; by rewrite ?Hr.
Qed.

(** X21. What [handleProxy] counts.  Every call adds one to
    [totalProxied] and leaves [activeProxies] and [successfulProxies] as
    they were.  [deniedProxies] moves, by one, exactly when the rule's
    handler returned no target or one the registry does not hold - not when
    proxying is switched off, the handler throws or the send fails.  The
    per-type counter and the latency window move only when the message was
    handed to the target: the type's counter by one, the window by the
    latency [finish - start], dropping its oldest entry beyond 100. *)
Theorem handleProxy_counters message source start now finish pm :
  let m := _metrics pm in
  let m' := _metrics (handleProxy message source start now finish pm).1 in
  totalProxied m' = (totalProxied m + 1)%Z ∧
  activeProxies m' = activeProxies m ∧
  successfulProxies m' = successfulProxies m ∧
  deniedProxies m' =
    (deniedProxies m +
     match stage message source now pm with Denied => 1 | _ => 0 end)%Z ∧
  match stage message source now pm with
  | Sent _ _ =>
      byType_request m' =
        (byType_request m + if is_request message then 1 else 0)%Z ∧
      byType_notification m' =
        (byType_notification m +
         if String.eqb (type message) "notification" then 1 else 0)%Z ∧
      latencies m' = window (latencies m ++ [(finish - start)%Z])
  | _ =>
      byType_request m' = byType_request m ∧
      byType_notification m' = byType_notification m ∧
      latencies m' = latencies m
  end.
Proof. rewrite handleProxy_stage. apply left_behind_counters. Qed.

Definition proxy_error := ProxyFacts.proxy_error.


(** X23. A request is tracked before it is sent, and stays tracked when
    the send fails.  Once a target is resolved, a request is entered as
    pending under its id, with the source's id and the time, and a timeout
    is scheduled for [timeout] ms later - whether the send then succeeds or
    not: after a failed send the source has its failure response and the
    request is pending all the same.  Messages of any other type, and
    messages that get no target, leave the pending requests and the timers
    alone. *)
Theorem request_tracked_before_send message source start now finish pm :
  let after := (handleProxy message source start now finish pm).1 in
  match stage message source now pm with
  | Sent rule _ | Unsent rule _ =>
      _rules pm = Some rule ∧
      if is_request message then
        _activeProxies after =
          <[requestId message :=
              {| sourceId := source_id source; timestamp := now |}]>
            (_activeProxies pm) ∧
        timers after =
          timers pm ++ [(requestId message, (now + timeout (options rule))%Z)]
      else _activeProxies after = _activeProxies pm ∧ timers after = timers pm
  | Refused _ | Denied =>
      _activeProxies after = _activeProxies pm ∧ timers after = timers pm
  end.
Proof. rewrite handleProxy_stage. apply left_behind_tracking. Qed.

(** What holds of the manager between calls. *)
Record Consistent (pm : ProxyManager) : Prop := {
  cons_active : activeProxies (_metrics pm) = 0%Z;
  cons_denied : (0 <= deniedProxies (_metrics pm))%Z;
  cons_successful : (0 <= successfulProxies (_metrics pm))%Z;
  cons_request : (0 <= byType_request (_metrics pm))%Z;
  cons_notification : (0 <= byType_notification (_metrics pm))%Z;
  cons_total :
    (deniedProxies (_metrics pm) + byType_request (_metrics pm) +
     byType_notification (_metrics pm) <= totalProxied (_metrics pm))%Z;
  cons_latencies :
    (deniedProxies (_metrics pm) + Z.of_nat (length (latencies (_metrics pm)))
     <= totalProxied (_metrics pm))%Z;
  cons_window : (length (latencies (_metrics pm)) ≤ 100)%nat;
  cons_pending : ∀ id info,
    _activeProxies pm !! id = Some info → ∃ d, (id, d) ∈ timers pm
}.

Lemma Consistent_handleProxy message source start now finish pm :
  Consistent pm →
  Consistent (handleProxy message source start now finish pm).1.
Proof.
  intros [H1 H2 H3 H4 H5 H6 H7 H8 H9]. rewrite handleProxy_stage.
  pose proof (left_behind_counters message source start now finish pm)
    as (C1 & C2 & C3 & C4 & C5).
  pose proof (left_behind_tracking message source start now finish pm) as T.
  simpl in *.
  set (after := left_behind message source start now finish pm) in *.
  clearbody after.
  assert (Hw : (length (window (latencies (_metrics pm) ++ [(finish - start)%Z]))
                ≤ 100)%nat).
  { apply window_length. rewrite length_app. simpl. lia. }
  pose proof (window_length_le (latencies (_metrics pm) ++ [(finish - start)%Z]))
    as Hw'. rewrite length_app in Hw'. simpl in Hw'.
  assert (Hpend : ∀ id info, _activeProxies after !! id = Some info →
                             ∃ d, (id, d) ∈ timers after).
  { intros id info Hin.
    assert (Hcase :
      (_activeProxies after = _activeProxies pm ∧ timers after = timers pm) ∨
      (∃ rule,
         _activeProxies after =
           <[requestId message :=
               {| sourceId := source_id source; timestamp := now |}]>
             (_activeProxies pm) ∧
         timers after =
           timers pm ++ [(requestId message, (now + timeout (options rule))%Z)])).
    { destruct (stage message source now pm) as [msg| |rule msg|rule r];
        [by left | by left | |];
        destruct T as [_ T]; destruct (is_request message);
        [right; eauto | by left | right; eauto | by left]. }
    destruct Hcase as [[Ta Tt] | (rule & Ta & Tt)]; rewrite Ta in Hin; rewrite Tt.
    - eauto.
    - rewrite lookup_insert in Hin. case_decide.
      + subst. eexists. rewrite elem_of_app, list_elem_of_singleton. by right.
      + destruct (H9 _ _ Hin) as [d Hd]. exists d. rewrite elem_of_app. by left. }
  split; try done; try lia.
  - destruct (stage message source now pm); lia.
  - destruct (stage message source now pm); destruct C5 as (-> & _); try lia.
    destruct (is_request message); lia.
  - destruct (stage message source now pm); destruct C5 as (_ & -> & _); try lia.
    destruct (String.eqb (type message) "notification"); lia.
  - destruct (stage message source now pm); destruct C5 as (-> & -> & _); try lia.
    unfold is_request.
    destruct (String.eqb_spec (type message) "request") as [->|]; simpl; [lia|].
    destruct (String.eqb (type message) "notification"); lia.
  - destruct (stage message source now pm); destruct C5 as (_ & _ & ->); lia.
  - destruct (stage message source now pm); destruct C5 as (_ & _ & ->); lia.
Qed.

Lemma Consistent_response response pm :
  Consistent pm → Consistent (handleProxyResponse response pm).1.
Proof.
  intros [H1 H2 H3 H4 H5 H6 H7 H8 H9]. unfold Proxy.handleProxyResponse.
  destruct (_activeProxies pm !! requestId response) as [info|]; [|done].
  assert (Hp : ∀ id i, delete (requestId response) (_activeProxies pm) !! id
                         = Some i → ∃ d, (id, d) ∈ timers pm).
  { intros id i. rewrite lookup_delete. case_decide; [done | eauto]. }
  destruct (starlings_get _) as [r|]; [destruct (send r _)|];
    split; simpl; try done; lia.
Qed.

Lemma elem_of_delete_other {A} (l : list A) i x y :
  x ∈ l → l !! i = Some y → x ≠ y → x ∈ delete i l.
Proof.
  revert i. induction l as [|z l IH]; intros i Hin Hi Hne; [done|].
  destruct i as [|i]; simpl in *.
  - injection Hi as ->. by apply elem_of_cons in Hin as [?|?].
  - apply elem_of_cons in Hin as [->|Hin]; [left | right; eauto].
Qed.

Lemma Consistent_fire t now pm pm' :
  Consistent pm → fire t now pm = Some pm' → Consistent pm'.
Proof.
  intros [H1 H2 H3 H4 H5 H6 H7 H8 H9]. unfold fire.
  destruct (list_find (λ x, x = t) (timers pm)) as [[i x]|] eqn:Hf; [|done].
  apply list_find_Some in Hf as (Hi & -> & _).
  destruct (t.2 <=? now)%Z; [|done]. simpl.
  assert (Hp : ∀ id info,
            delete t.1 (_activeProxies pm) !! id = Some info →
            ∃ d, (id, d) ∈ delete i (timers pm)).
  { intros id info. rewrite lookup_delete. case_decide; [done|].
    intros Hin. destruct (H9 _ _ Hin) as [d Hd]. exists d.
    eapply elem_of_delete_other; eauto. intros <-. done. }
  destruct (_activeProxies pm !! t.1) as [info|] eqn:Ht; intros [= <-];
    split; simpl; try done.
  intros id info' Hin. apply (Hp id info').
  rewrite lookup_delete. case_decide; [congruence | done].
Qed.

(** X24. Between calls the manager's books balance.  After any
    sequence of [setRule], [handleProxy], [handleProxyResponse] and
    timeouts, starting from a new manager: [activeProxies] is zero; no
    counter is negative; the denials and the messages counted by type
    together do not exceed [totalProxied], nor do the denials and the
    latencies kept; the latency window holds at most 100 entries; and every
    pending request has a timeout scheduled, so none stays pending for
    ever. *)
Theorem proxy_books_balance pm :
  reachable pm →
  activeProxies (_metrics pm) = 0%Z ∧
  (0 <= deniedProxies (_metrics pm))%Z ∧
  (0 <= successfulProxies (_metrics pm))%Z ∧
  (0 <= byType_request (_metrics pm))%Z ∧
  (0 <= byType_notification (_metrics pm))%Z ∧
  (deniedProxies (_metrics pm) + byType_request (_metrics pm) +
   byType_notification (_metrics pm) <= totalProxied (_metrics pm))%Z ∧
  (deniedProxies (_metrics pm) + Z.of_nat (length (latencies (_metrics pm)))
   <= totalProxied (_metrics pm))%Z ∧
  (length (latencies (_metrics pm)) ≤ 100)%nat ∧
  (∀ id info, _activeProxies pm !! id = Some info → ∃ d, (id, d) ∈ timers pm).
Proof.
  intros Hr. assert (HC : Consistent pm).
  { induction Hr as [|pm o pm' _ IH Hs].
    - split; simpl; try done; try lia.
    - destruct o as [rule | message source start now finish | response | t now];
        simpl in Hs.
      + injection Hs as <-. destruct IH. by destruct rule.
      + injection Hs as <-. by apply Consistent_handleProxy.
      + injection Hs as <-. by apply Consistent_response.
      + by eapply Consistent_fire. }
  by destruct HC.
Qed.

Lemma response_settles_once_aux response info pm :
  _activeProxies pm !! requestId response = Some info →
  _activeProxies (handleProxyResponse response pm).1 =
    delete (requestId response) (_activeProxies pm) ∧
  timers (handleProxyResponse response pm).1 = timers pm.
Proof.
  intros Hin. unfold Proxy.handleProxyResponse. rewrite Hin.
  destruct (starlings_get _) as [r|]; [destruct (send r _)|]; done.
Qed.

(** X25. A response settles a pending request once, and only once.
    When the source is found and the send to it goes through, the response
    is handed to it together with the request's proxy information,
    [successfulProxies] goes up by one and the request is no longer
    pending.  Whatever the outcome of a response - delivered, source not
    found, send failed - the request is no longer pending afterwards, a
    second response to it is refused as unknown and changes nothing, and
    the request's timeout, still scheduled, fires without emitting
    anything. *)
Theorem response_settles_once response info pm :
  _activeProxies pm !! requestId response = Some info →
  let after := (handleProxyResponse response pm).1 in
  (∀ r, starlings_get (Registry.KString (sourceId info)) = Some r →
        send r (Completed response info) = Ok tt →
        (handleProxyResponse response pm).2 = Ok tt ∧
        sent after = sent pm ++ [(ToPeer r, Completed response info)] ∧
        successfulProxies (_metrics after) =
          (successfulProxies (_metrics pm) + 1)%Z) ∧
  _activeProxies after = delete (requestId response) (_activeProxies pm) ∧
  timers after = timers pm ∧
  handleProxyResponse response after = (after, Throw "Unknown proxy response") ∧
  (∀ d now pm', fire (requestId response, d) now after = Some pm' →
     events pm' = events after ∧ _activeProxies pm' = _activeProxies after).
Proof.
  intros Hin after.
  assert (Ha : _activeProxies after =
               delete (requestId response) (_activeProxies pm)).
  { unfold after, Proxy.handleProxyResponse. rewrite Hin.
    destruct (starlings_get _) as [r|]; [destruct (send r _)|]; done. }
  assert (Hgone : _activeProxies after !! requestId response = None)
    by (rewrite Ha; apply lookup_delete_eq).
  split; [|split; [done|split; [|split]]].
  - intros r Hg Hs. unfold after, Proxy.handleProxyResponse.
    rewrite Hin, Hg, Hs. done.
  - unfold after, Proxy.handleProxyResponse. rewrite Hin.
    destruct (starlings_get _) as [r|]; [destruct (send r _)|]; done.
  - by apply ProxyFacts.handleProxyResponse_unknown.
  - intros d now pm'. unfold fire.
    destruct (list_find _ (timers after)) as [[i x]|]; [|done].
    destruct (_ <=? now)%Z; [|done]. simpl. rewrite Hgone.
    by intros [= <-].
Qed.

(** X26. The timeout of a request is keyed by the request's id and is
    not cancelled by the response.  If, after the response, a request with
    the same id is tracked again, the first timeout - when it comes due -
    finds the new request pending, removes it and emits [proxy:timeout],
    however recently the new request was tracked. *)
Theorem stale_timeout_drops_request message source response again source'
  now0 now1 later rule pm :
  _rules pm = Some rule →
  requestId response = requestId message →
  requestId again = requestId message →
  (now0 + timeout (options rule) <= later)%Z →
  let t0 := (requestId message, (now0 + timeout (options rule))%Z) in
  let pm1 := _trackProxyRequest message source now0 pm in
  let pm2 := (handleProxyResponse response pm1).1 in
  let pm3 := _trackProxyRequest again source' now1 pm2 in
  _activeProxies pm2 !! requestId message = None ∧
  _activeProxies pm3 !! requestId message =
    Some {| sourceId := source_id source'; timestamp := now1 |} ∧
  ∃ pm4, fire t0 later pm3 = Some pm4 ∧
         _activeProxies pm4 !! requestId message = None ∧
         events pm4 = events pm3 ++
           [{| ev_name := "proxy:timeout";
               ev_message := "Proxy request " +:+ requestId message +:+
                             " timed out" |}].
Proof.
  intros Hr Hid Hid' Hle t0 pm1 pm2 pm3.
  assert (H1 : _activeProxies pm1 !! requestId response =
               Some {| sourceId := source_id source; timestamp := now0 |}).
  { unfold pm1, _trackProxyRequest. simpl. by rewrite Hid, lookup_insert_eq. }
  destruct (response_settles_once_aux response _ pm1 H1) as (H2 & H3).
  fold pm2 in H2, H3. rewrite Hid in H2.
  split; [by rewrite H2, lookup_delete_eq|].
  assert (H4 : _activeProxies pm3 !! requestId message =
               Some {| sourceId := source_id source'; timestamp := now1 |}).
  { unfold pm3, _trackProxyRequest. simpl. by rewrite Hid', lookup_insert_eq. }
  split; [done|].
  assert (Hin : t0 ∈ timers pm3).
  { unfold pm3, _trackProxyRequest. simpl. rewrite H3.
    unfold pm1, _trackProxyRequest. simpl. rewrite Hr.
    rewrite !elem_of_app, !list_elem_of_singleton. left. by right. }
  unfold fire.
  destruct (list_find (λ x, x = t0) (timers pm3)) as [[i x]|] eqn:Hf.
  2:{ apply list_find_None in Hf. rewrite Forall_forall in Hf.
      by destruct (Hf t0 Hin). }
  assert (Hd : (t0.2 <=? later)%Z = true) by (apply Z.leb_le; done).
  rewrite Hd. cbn [_activeProxies]. change (t0.1) with (requestId message).
  rewrite H4. eexists. split; [reflexivity|].
  unfold _handleProxyTimeout. simpl. by rewrite lookup_delete_eq.
Qed.

End WithServer.

(** *** Worked cases *)

(** A registry stand-in that knows peer ["p1"] as object 0, under its
    handle and - unlike the server's own [get] - under its id. *)
Definition knows_p1 : Key -> option Ref :=
  λ k, match k with
       | Registry.KHandle 1 => Some 0
       | Registry.KString "p1" => Some 0
       | _ => None
       end.

Definition has_all : Key -> Res bool := λ _, Ok true.
Definition send_ok : Ref -> Outgoing -> Res unit := λ _ _, Ok tt.

Definition request_X : Message :=
  {| type := "request"; requestId := "X"; payload := VNull |}.

Definition after_request_X : ProxyManager :=
  (Proxy.handleProxy has_all knows_p1 send_ok request_X {| source_id := "p1" |}
     0 1 2 (setRule (Some ProxyFacts.any_rule) initial).1).1.

Lemma proxy_books_balance_witness :
  ProxyRuns.reachable has_all knows_p1 send_ok after_request_X ∧
  totalProxied (_metrics after_request_X) = 1%Z ∧
  activeProxies (_metrics after_request_X) = 0%Z ∧
  ∃ d, ("X", d) ∈ timers after_request_X.
Proof.
  assert (Hr : ProxyRuns.reachable has_all knows_p1 send_ok after_request_X).
  { eapply reachable_step
      with (o := HandleProxy request_X {| source_id := "p1" |} 0 1 2);
      [|reflexivity].
    eapply reachable_step with (o := SetRule (Some ProxyFacts.any_rule));
      [apply reachable_initial | reflexivity]. }
  destruct (proxy_books_balance has_all knows_p1 send_ok after_request_X Hr)
    as (Ha & _ & _ & _ & _ & _ & _ & _ & Hp).
  split; [exact Hr|]. split; [reflexivity|]. split; [exact Ha|].
  apply (Hp "X" {| sourceId := "p1"; timestamp := 1 |}). reflexivity.
Defined.

Lemma response_settles_once_witness :
  let after := (Proxy.handleProxyResponse knows_p1 send_ok ProxyFacts.response_X
                  ProxyFacts.tracking_X).1 in
  _activeProxies ProxyFacts.tracking_X !! "X" =
    Some {| sourceId := "p1"; timestamp := 0 |} ∧
  successfulProxies (_metrics after) = 1%Z ∧
  _activeProxies after !! "X" = None ∧
  (Proxy.handleProxyResponse knows_p1 send_ok ProxyFacts.response_X after).2 =
    Throw "Unknown proxy response".
Proof.
  assert (H : _activeProxies ProxyFacts.tracking_X
                !! requestId ProxyFacts.response_X =
              Some {| sourceId := "p1"; timestamp := 0 |})
    by (vm_compute; reflexivity).
  destruct (response_settles_once knows_p1 send_ok ProxyFacts.response_X _
              ProxyFacts.tracking_X H) as (Hok & Hgone & _ & Htwice & _).
  destruct (Hok 0 eq_refl eq_refl) as (_ & _ & Hs).
  split; [exact H|]. split; [exact Hs|]. split.
  - rewrite Hgone. apply lookup_delete_eq.
  - rewrite Htwice. reflexivity.
Defined.

(** Request ["X"] is tracked at 0 and answered; a request with the same id
    is tracked at 29990; the timeout of the first, due at 30000, removes
    it. *)
Lemma stale_timeout_drops_request_witness :
  let pm2 := (Proxy.handleProxyResponse knows_p1 send_ok ProxyFacts.response_X
                ProxyFacts.tracking_X).1 in
  let pm3 := _trackProxyRequest request_X {| source_id := "p1" |} 29990 pm2 in
  _activeProxies pm3 !! "X" = Some {| sourceId := "p1"; timestamp := 29990 |} ∧
  ∃ pm4, fire ("X", 30000%Z) 30000 pm3 = Some pm4 ∧
         _activeProxies pm4 !! "X" = None.
Proof.
  destruct (stale_timeout_drops_request knows_p1 send_ok request_X
              {| source_id := "p1" |} ProxyFacts.response_X request_X
              {| source_id := "p1" |} 0 29990 30000 ProxyFacts.any_rule
              (setRule (Some ProxyFacts.any_rule) initial).1
              eq_refl eq_refl eq_refl)
    as (_ & H1 & pm4 & H2 & H3 & _); [vm_compute; discriminate|].
  split; [exact H1|]. exists pm4. split; [exact H2 | exact H3].
Defined.

End RoutingFacts.

(** ** Proxy routing with the server's own registry *)

Module OwnRegistryFacts.
Import Proxy ProxyRuns.

Section Repository.
Context {App : Type}.
(** [this._helios.starlings] is the server's [StarlingsManager]. *)
Variable starlings : Registry.StarlingsManager App.
Variable send : Ref -> Outgoing -> Res unit.

Abbreviation has := ProxyFacts.registry_has.
Abbreviation get := (ProxyFacts.registry_get starlings).
Abbreviation reachable := (ProxyRuns.reachable has get send).
Abbreviation stage := (RoutingFacts.stage has get send).





End Repository.


End OwnRegistryFacts.

(** ** The server's proxy middlewares *)

Module MiddlewareFacts.
Import Middlewares.

Section Handlers.
Variable PROXY_FORBIDDEN : string.
Variable PROXY_ERROR : string.
Variable send : Ref -> Relayed -> option Failure.

Abbreviation request := (Middlewares.request PROXY_FORBIDDEN PROXY_ERROR send).
Abbreviation response := (Middlewares.response PROXY_FORBIDDEN PROXY_ERROR send).
Abbreviation notification :=
  (Middlewares.notification PROXY_FORBIDDEN PROXY_ERROR send).
Abbreviation errorMessage :=
  (Middlewares.errorMessage PROXY_FORBIDDEN PROXY_ERROR send).

(** Passing [useProxies] only an [onErrorMessage] middleware. *)
Definition only_onErrorMessage (h : option Middleware) : Given :=
  {| given_onRequest := None; given_onResponse := None;
     given_onNotification := None; given_onErrorMessage := Some h |}.

Definition only_onNotification (h : option Middleware) : Given :=
  {| given_onRequest := None; given_onResponse := None;
     given_onNotification := Some h; given_onErrorMessage := None |}.

(** X28. The [onErrorMessage] middleware is never consulted.  The
    handler for error messages reads [onNotification]: installing, replacing
    or removing [onErrorMessage] with [useProxies] changes the outcome of
    none of the four handlers; on a server with only [onErrorMessage] set,
    an error message is refused as "disabled for notifications"; and it is
    [onNotification] that, once installed, decides where error messages
    go. *)
Theorem onErrorMessage_unused (p : ProxiesMiddlewares) h context :
  let p' := useProxies (only_onErrorMessage h) p in
  request p' context = request p context ∧
  response p' context = response p context ∧
  notification p' context = notification p context ∧
  errorMessage p' context = errorMessage p context ∧
  errorMessage (useProxies (only_onErrorMessage h) initial) context =
    SendError PROXY_FORBIDDEN
      "Proxy is disabled for notifications by the server" ∧
  ∀ g r,
    g context = Returns (Target r) →
    send r (ApplicationError (code context) (message context) (body context)
              (source context)) = None →
    errorMessage (useProxies (only_onNotification (Some g)) p) context =
      Relay r (ApplicationError (code context) (message context)
                 (body context) (source context)).
Proof.
  repeat split.
  intros g r Hg Hs. unfold Middlewares.errorMessage, relay. simpl.
  by rewrite Hg, Hs.
Qed.

Lemma relay_Relay handler report disabled failed build context r m :
  (∀ c msg, report c msg ≠ Relay r m) →
  relay PROXY_FORBIDDEN PROXY_ERROR send handler report disabled failed build
    context = Relay r m ↔
  ∃ h, handler = Some h ∧ h context = Returns (Target r) ∧
       m = build context ∧ send r m = None.
Proof.
  intros Hrep. unfold relay. split.
  - destruct handler as [h|]; [|by intros ?%Hrep].
    destruct (h context) as [[|r'|]|e] eqn:Hh; try by intros ?%Hrep.
    destruct (send r' (build context)) eqn:Hs; [by intros ?%Hrep|].
    intros [= -> <-]. eauto.
  - intros (h & -> & -> & -> & ->). done.
Qed.

(** X29. A handler relays only to the peer its middleware returned.  A
    message goes to a target exactly when the middleware that governs the
    handler is installed, returned a [Starling] for this context, and the
    send did not throw; what is sent is built from the context and carries
    the source's id.  In every other case nothing is relayed: the source
    gets one error instead, through [context.error] for a request and
    through [sendError] otherwise. *)
Theorem relay_only_to_returned_target (p : ProxiesMiddlewares) context r m :
  (request p context = Relay r m ↔
   ∃ h, onRequest p = Some h ∧ h context = Returns (Target r) ∧
        m = Request (method context) (requestId context) (body context)
              (source context) ∧
        send r m = None) ∧
  (response p context = Relay r m ↔
   ∃ h, onResponse p = Some h ∧ h context = Returns (Target r) ∧
        m = match error context with
            | Some (code, message) =>
                ErrorResponse (requestId context) code message (source context)
            | None =>
                SuccessResponse (requestId context) (body context)
                  (source context)
            end ∧
        send r m = None) ∧
  (notification p context = Relay r m ↔
   ∃ h, onNotification p = Some h ∧ h context = Returns (Target r) ∧
        m = Notification (topic context) (body context) (source context) ∧
        send r m = None) ∧
  (errorMessage p context = Relay r m ↔
   ∃ h, onNotification p = Some h ∧ h context = Returns (Target r) ∧
        m = ApplicationError (code context) (message context) (body context)
              (source context) ∧
        send r m = None) ∧
  (∀ c msg, request p context ≠ SendError c msg) ∧
  (∀ c msg, response p context ≠ ContextError c msg ∧
            notification p context ≠ ContextError c msg ∧
            errorMessage p context ≠ ContextError c msg).
Proof.
  split; [by apply relay_Relay|]. split; [by apply relay_Relay|].
  split; [by apply relay_Relay|]. split; [by apply relay_Relay|].
  unfold Middlewares.request, Middlewares.response, Middlewares.notification,
    Middlewares.errorMessage, relay.
  split; [intros c msg | intros c msg; repeat split];
    repeat case_match; done.
Qed.

End Handlers.
End MiddlewareFacts.
